(** * laminterp: lexer, parser and evaluator of a small lambda-calculus language

    A shallow embedding of [lex.go], the parser and [eval.go].  Go strings are
    byte strings ([string]); runes are integers ([Z]), with [eof = -1];
    arbitrary-precision integers ([*big.Int]) are [Z].  Code that mutates a
    receiver ([*lexer], [*parser]) is written in a state monad whose outcomes
    also record a run-time panic and the exhaustion of the recursion budget of
    the model. *)

From Stdlib Require Import ZArith List String Ascii Bool Arith Lia.
Import ListNotations.

Local Open Scope string_scope.

(** ** Outcomes and the state monad *)

Inductive outcome (A : Type) : Type :=
| Ret (a : A)
| Panic (msg : string)
| OutOfFuel.

Arguments Ret {A} a.
Arguments Panic {A} msg.
Arguments OutOfFuel {A}.

Definition M (S A : Type) : Type := S -> outcome (A * S).

Definition ret {S A : Type} (a : A) : M S A := fun s => Ret (a, s).

Definition bind {S A B : Type} (m : M S A) (k : A -> M S B) : M S B :=
  fun s =>
    match m s with
    | Ret (a, s') => k a s'
    | Panic msg => Panic msg
    | OutOfFuel => OutOfFuel
    end.

Definition panic {S A : Type} (msg : string) : M S A := fun _ => Panic msg.

Definition outOfFuel {S A : Type} : M S A := fun _ => OutOfFuel.

Notation "x <- m ;; k" := (bind m (fun x => k))
  (at level 61, m at next level, right associativity).
Notation "m ;;; k" := (bind m (fun _ => k))
  (at level 61, right associativity).

(** ** Go strings *)

Fixpoint drop (n : nat) (s : string) : string :=
  match n, s with
  | O, _ => s
  | S _, EmptyString => EmptyString
  | S n', String _ s' => drop n' s'
  end.

Fixpoint take (n : nat) (s : string) : string :=
  match n, s with
  | O, _ => EmptyString
  | S _, EmptyString => EmptyString
  | S n', String c s' => String c (take n' s')
  end.

(** [s[a:b]]; the bounds check of the Go slice expression is done by the
    caller ([lexer_val]). *)
Definition slice (a b : nat) (s : string) : string := take (b - a) (drop a s).

Definition byteZ (c : ascii) : Z := Z.of_N (N_of_ascii c).

Definition byteOfZ (z : Z) : ascii := ascii_of_N (Z.to_N z).

(** *** unicode/utf8 *)

Definition RuneError : Z := 65533.

(** [utf8.DecodeRuneInString]: the first rune of [s] and its width in bytes;
    [(RuneError, 0)] on the empty string and [(RuneError, 1)] on an invalid
    encoding. *)
Definition DecodeRuneInString (s : string) : Z * nat :=
  match s with
  | EmptyString => (RuneError, 0)
  | String c0 t0 =>
    let s0 := byteZ c0 in
    if (s0 <? 128)%Z then (s0, 1)
    else if ((s0 <? 194) || (244 <? s0))%Z then (RuneError, 1)
    else
      let sz := if (s0 <? 224)%Z then 2 else if (s0 <? 240)%Z then 3 else 4 in
      let lo := if (s0 =? 224)%Z then 160%Z
                else if (s0 =? 240)%Z then 144%Z else 128%Z in
      let hi := if (s0 =? 237)%Z then 159%Z
                else if (s0 =? 244)%Z then 143%Z else 191%Z in
      if (String.length s <? sz)%nat then (RuneError, 1)
      else
        match t0 with
        | EmptyString => (RuneError, 1)
        | String c1 t1 =>
          let s1 := byteZ c1 in
          if ((s1 <? lo) || (hi <? s1))%Z then (RuneError, 1)
          else if (sz <=? 2)%nat
          then (Z.lor (Z.shiftl (Z.land s0 31) 6) (Z.land s1 63), 2)
          else
            match t1 with
            | EmptyString => (RuneError, 1)
            | String c2 t2 =>
              let s2 := byteZ c2 in
              if ((s2 <? 128) || (191 <? s2))%Z then (RuneError, 1)
              else if (sz <=? 3)%nat
              then (Z.lor (Z.lor (Z.shiftl (Z.land s0 15) 12)
                                 (Z.shiftl (Z.land s1 63) 6))
                          (Z.land s2 63), 3)
              else
                match t2 with
                | EmptyString => (RuneError, 1)
                | String c3 _ =>
                  let s3 := byteZ c3 in
                  if ((s3 <? 128) || (191 <? s3))%Z then (RuneError, 1)
                  else (Z.lor (Z.lor (Z.lor (Z.shiftl (Z.land s0 7) 18)
                                            (Z.shiftl (Z.land s1 63) 12))
                                     (Z.shiftl (Z.land s2 63) 6))
                              (Z.land s3 63), 4)
                end
            end
        end
  end.

(** The UTF-8 encoding of a rune, as the verb [%c] prints it: an invalid code
    point is printed as U+FFFD. *)
Definition runeString (r : Z) : string :=
  let cont (z : Z) := byteOfZ (Z.lor 128 (Z.land z 63)) in
  if ((r <? 0) || (1114111 <? r) || ((55296 <=? r) && (r <=? 57343)))%Z
  then String (byteOfZ 239) (String (byteOfZ 191) (String (byteOfZ 189) ""))
  else if (r <? 128)%Z then String (byteOfZ r) ""
  else if (r <? 2048)%Z
  then String (byteOfZ (Z.lor 192 (Z.shiftr r 6))) (String (cont r) "")
  else if (r <? 65536)%Z
  then String (byteOfZ (Z.lor 224 (Z.shiftr r 12)))
         (String (cont (Z.shiftr r 6)) (String (cont r) ""))
  else String (byteOfZ (Z.lor 240 (Z.shiftr r 18)))
         (String (cont (Z.shiftr r 12))
            (String (cont (Z.shiftr r 6)) (String (cont r) ""))).

(** ** lex.go *)

Inductive tokenType : Type :=
| tokenError
| tokenEOF
| tokenNumber
| tokenBool
| tokenIdentifier
| tokenLeftParen
| tokenRightParen.

Definition tokenType_eqb (a b : tokenType) : bool :=
  match a, b with
  | tokenError, tokenError | tokenEOF, tokenEOF | tokenNumber, tokenNumber
  | tokenBool, tokenBool | tokenIdentifier, tokenIdentifier
  | tokenLeftParen, tokenLeftParen | tokenRightParen, tokenRightParen => true
  | _, _ => false
  end.

Definition tokenType_String (t : tokenType) : string :=
  match t with
  | tokenError => "error"
  | tokenEOF => "EOF"
  | tokenNumber => "number"
  | tokenBool => "bool"
  | tokenIdentifier => "identifier"
  | tokenLeftParen => "'('"
  | tokenRightParen => "')'"
  end.

Record token : Type := mktok { typ : tokenType; val : string }.

Definition errorToken (msg : string) : token := mktok tokenError msg.

Record lexer : Type := mkLexer {
  input : string;
  pos : nat;
  start : nat;
  width : nat
}.

Definition newLexer (s : string) : lexer := mkLexer s 0 0 0.

Definition eof : Z := (-1)%Z.

Definition isSpace (r : Z) : bool :=
  ((r =? 32) || (r =? 9) || (r =? 13) || (r =? 10))%Z.

Definition isLetter (r : Z) : bool :=
  (((97 <=? r) && (r <=? 122)) || ((65 <=? r) && (r <=? 90)))%Z.

Definition isDigit (r : Z) : bool := ((48 <=? r) && (r <=? 57))%Z.

Definition isBoundary (r : Z) : bool :=
  (isSpace r || (r =? 41)%Z || (r =? eof)%Z).

Definition lexer_next : M lexer Z :=
  fun l =>
    if (String.length (input l) <=? pos l)%nat
    then Ret (eof, mkLexer (input l) (pos l) (start l) 0)
    else
      let (ch, w) := DecodeRuneInString (drop (pos l) (input l)) in
      Ret (ch, mkLexer (input l) (pos l + w) (start l) w).

Definition lexer_unnext : M lexer unit :=
  fun l => Ret (tt, mkLexer (input l) (pos l - width l) (start l) (width l)).

(** [l.input[l.start:l.pos]]; Go panics when the bounds are out of order or
    out of range. *)
Definition lexer_val : M lexer string :=
  fun l =>
    if ((start l <=? pos l) && (pos l <=? String.length (input l)))%nat
    then Ret (slice (start l) (pos l) (input l), l)
    else Panic "slice bounds out of range".

Definition lexer_emit (t : tokenType) : M lexer token :=
  v <- lexer_val ;;
  fun l => Ret (mktok t v, mkLexer (input l) (pos l) (pos l) (width l)).

(** The scanning loops of the lexer, [for { ch = l.next(); if !p(ch) { break } }]:
    runes are consumed while they satisfy [p]; the first one that does not is
    consumed too and returned. *)
Fixpoint nextWhile (p : Z -> bool) (fuel : nat) : M lexer Z :=
  match fuel with
  | O => outOfFuel
  | S fuel' =>
    ch <- lexer_next ;;
    if p ch then nextWhile p fuel' else ret ch
  end.

(** Enough iterations to reach the end of the input from the current
    position. *)
Definition scanWhile (p : Z -> bool) : M lexer Z :=
  fun l => nextWhile p (S (String.length (input l) - pos l)) l.

Definition skipSpaces : M lexer unit :=
  scanWhile isSpace ;;;
  lexer_unnext ;;;
  fun l => Ret (tt, mkLexer (input l) (pos l) (pos l) (width l)).

Definition lexNumber : M lexer token :=
  ch <- lexer_next ;;
  ch <- (if (ch =? 45)%Z then lexer_next else ret ch) ;;
  if negb (isDigit ch) then
    (if isBoundary ch then lexer_unnext else ret tt) ;;;
    v <- lexer_val ;;
    ret (errorToken ("bad number syntax: '" ++ v ++ "'"))
  else
    ch <- scanWhile isDigit ;;
    if negb (isBoundary ch) then
      v <- lexer_val ;;
      ret (errorToken ("bad number syntax: '" ++ v ++ "'"))
    else
      lexer_unnext ;;;
      lexer_emit tokenNumber.

Definition lexIdentifier : M lexer token :=
  ch <- scanWhile (fun ch => isDigit ch || isLetter ch) ;;
  if negb (isBoundary ch) then
    v <- lexer_val ;;
    ret (errorToken ("bad identifier syntax: '" ++ v ++ "'"))
  else
    lexer_unnext ;;;
    v <- lexer_val ;;
    lexer_emit (if (v =? "true") || (v =? "false")
                then tokenBool else tokenIdentifier).

Definition nextToken : M lexer token :=
  skipSpaces ;;;
  ch <- lexer_next ;;
  if (ch =? 45)%Z || isDigit ch then lexer_unnext ;;; lexNumber
  else if isLetter ch then lexIdentifier
  else if (ch =? 40)%Z then lexer_emit tokenLeftParen
  else if (ch =? 41)%Z then lexer_emit tokenRightParen
  else if (ch =? eof)%Z then lexer_emit tokenEOF
  else ret (errorToken ("illegal character: '" ++ runeString ch ++ "'")).

(** [collectTokens] of lex_test.go: the tokens up to and including the first
    error or end-of-input token. *)
Fixpoint collectTokensFrom (fuel : nat) (l : lexer) : outcome (list token) :=
  match fuel with
  | O => OutOfFuel
  | S fuel' =>
    match nextToken l with
    | Ret (t, l') =>
      match typ t with
      | tokenError | tokenEOF => Ret [t]
      | _ =>
        match collectTokensFrom fuel' l' with
        | Ret ts => Ret (t :: ts)
        | Panic msg => Panic msg
        | OutOfFuel => OutOfFuel
        end
      end
    | Panic msg => Panic msg
    | OutOfFuel => OutOfFuel
    end
  end.

Definition collectTokens (s : string) : outcome (list token) :=
  collectTokensFrom (S (String.length s)) (newLexer s).


(** ** The parser *)

Inductive syntaxType : Type :=
| syntaxExpression
| syntaxRightParen
| syntaxNumber
| syntaxBool
| syntaxIdentifier
| syntaxEOF.

Definition syntaxType_String (t : syntaxType) : string :=
  match t with
  | syntaxExpression => "expression"
  | syntaxRightParen => "')'"
  | syntaxNumber => "number"
  | syntaxBool => "bool"
  | syntaxIdentifier => "identifier"
  | syntaxEOF => "EOF"
  end.

(** The values stored in the [val] field of an error node; both dynamic types
    satisfy the [error] interface: [*expectError], and the error that
    [fmt.Errorf] builds from a message. *)
Inductive errorVal : Type :=
| ExpectError (want : syntaxType) (got : tokenType)
| ErrorString (msg : string).

Definition errorVal_Error (e : errorVal) : string :=
  match e with
  | ExpectError want got =>
    "expecting " ++ syntaxType_String want ++ "; got " ++ tokenType_String got
  | ErrorString msg => msg
  end.

(** [node]: the tag [typ] and the payload [val] of the Go struct are one
    constructor here. *)
Inductive node : Type :=
| NodeError (e : errorVal)
| NodeApp (fn arg : node)
| NodeLam (param : string) (body : node)
| NodeIdentifier (name : string)
| NodeNumber (n : Z)
| NodeBool (b : bool).

Definition errorNode (msg : string) : node := NodeError (ErrorString msg).

Definition newExpectError (want : syntaxType) (got : tokenType) : node :=
  NodeError (ExpectError want got).

Definition isNodeError (n : node) : bool :=
  match n with NodeError _ => true | _ => false end.

Record parser : Type := mkParser { lex : lexer; buf : option token }.

Definition newParser (s : string) : parser := mkParser (newLexer s) None.

Definition parser_next : M parser token :=
  fun p =>
    match buf p with
    | Some t => Ret (t, mkParser (lex p) None)
    | None =>
      match nextToken (lex p) with
      | Ret (t, l') => Ret (t, mkParser l' None)
      | Panic msg => Panic msg
      | OutOfFuel => OutOfFuel
      end
    end.

Definition parser_unnext (t : token) : M parser unit :=
  fun p =>
    match buf p with
    | Some _ => Panic "internal parser error: multiple unnext"
    | None => Ret (tt, mkParser (lex p) (Some t))
    end.

Definition parseIdentifier : M parser node :=
  tok <- parser_next ;;
  if negb (tokenType_eqb (typ tok) tokenIdentifier)
  then ret (newExpectError syntaxIdentifier (typ tok))
  else ret (NodeIdentifier (val tok)).

(** *** math/big *)

Definition digitValue (c : ascii) : option Z :=
  let b := byteZ c in
  if isDigit b then Some (b - 48)%Z else None.

Fixpoint scanDigits (acc : Z) (s : string) : option Z :=
  match s with
  | EmptyString => Some acc
  | String c s' =>
    match digitValue c with
    | Some d => scanDigits (10 * acc + d) s'
    | None => None
    end
  end.

(** [new(big.Int).SetString(s, 10)]: an optional sign and one or more decimal
    digits; the whole string has to be consumed. *)
Definition SetString10 (s : string) : option Z :=
  let digits (t : string) :=
    match t with
    | EmptyString => None
    | _ => scanDigits 0 t
    end in
  match s with
  | EmptyString => None
  | String c t =>
    if (c =? "-")%char then option_map Z.opp (digits t)
    else if (c =? "+")%char then digits t
    else digits s
  end.

Definition parseNumber : M parser node :=
  tok <- parser_next ;;
  match SetString10 (val tok) with
  | None => ret (errorNode ("bad number: '" ++ val tok ++ "'"))
  | Some n => ret (NodeNumber n)
  end.

Definition parseBool : M parser node :=
  tok <- parser_next ;;
  if val tok =? "true" then ret (NodeBool true)
  else if val tok =? "false" then ret (NodeBool false)
  else ret (errorNode ("bad bool: '" ++ val tok ++ "'")).

(** [parseApp], [parseLam] and [parseExpression] are mutually recursive in
    the source; here the first two take the recursive call as an argument. *)
Definition parseApp (parseExpression : M parser node) : M parser node :=
  fn <- parseExpression ;;
  if isNodeError fn then ret fn
  else
    arg <- parseExpression ;;
    if isNodeError arg then ret arg
    else ret (NodeApp fn arg).

Definition parseLam (parseExpression : M parser node) : M parser node :=
  param <- parseIdentifier ;;
  match param with
  | NodeError _ => ret param
  | NodeIdentifier name =>
    body <- parseExpression ;;
    if isNodeError body then ret body
    else ret (NodeLam name body)
  | _ => panic "interface conversion: interface {} is not string"
  end.

Fixpoint parseExpression (fuel : nat) : M parser node :=
  match fuel with
  | O => outOfFuel
  | S fuel' =>
    tok <- parser_next ;;
    match typ tok with
    | tokenLeftParen =>
      e <- parseExpression fuel' ;;
      if isNodeError e then ret e
      else
        tok' <- parser_next ;;
        if negb (tokenType_eqb (typ tok') tokenRightParen)
        then ret (newExpectError syntaxRightParen (typ tok'))
        else ret e
    | tokenRightParen => ret (newExpectError syntaxExpression tokenRightParen)
    | tokenIdentifier =>
      if val tok =? "lam" then parseLam (parseExpression fuel')
      else if val tok =? "app" then parseApp (parseExpression fuel')
      else parser_unnext tok ;;; parseIdentifier
    | tokenNumber => parser_unnext tok ;;; parseNumber
    | tokenBool => parser_unnext tok ;;; parseBool
    | tokenError => ret (NodeError (ErrorString (val tok)))
    | tokenEOF => ret (newExpectError syntaxExpression tokenEOF)
    end
  end.

Definition parse (fuel : nat) : M parser node :=
  root <- parseExpression fuel ;;
  if isNodeError root then ret root
  else
    tok <- parser_next ;;
    if negb (tokenType_eqb (typ tok) tokenEOF)
    then ret (newExpectError syntaxEOF (typ tok))
    else ret root.

(** [parseString]: every call of [parseExpression] but the outermost one
    follows a token of at least one byte, so the nesting depth is at most the
    length of the input plus one. *)
Definition parseString (s : string) : outcome node :=
  match parse (S (String.length s)) (newParser s) with
  | Ret (n, _) => Ret n
  | Panic msg => Panic msg
  | OutOfFuel => OutOfFuel
  end.

Definition isUnexpectedEOFError (n : node) : bool :=
  match n with
  | NodeError (ExpectError _ got) => tokenType_eqb got tokenEOF
  | _ => false
  end.

(** ** eval.go *)

(** Runtime objects.  A [funcObject] is a Go function value: the three
    builtins and the closures they return, each with the variables it
    captured.  A [*lamObject] holds the lambda node (parameter and body) and
    the environment of its creation; a nil [*environment] is [EnvNil]. *)
Inductive object : Type :=
| ObjError (msg : string)
| ObjBool (b : bool)
| ObjNumber (n : Z)
| ObjFunc (f : funcObject)
| ObjLam (param : string) (body : node) (env : environment)
with funcObject : Type :=
| FuncAdd
| FuncAdd1 (a : object)
| FuncIf
| FuncIf1 (a : object)
| FuncIf2 (a b : object)
| FuncGt
| FuncGt1 (a : object)
with environment : Type :=
| EnvNil
| EnvFrame (parent : environment) (symbol : string) (value : object).

Definition isObjError (v : object) : bool :=
  match v with ObjError _ => true | _ => false end.

Definition isObjNumber (v : object) : bool :=
  match v with ObjNumber _ => true | _ => false end.

Definition isObjBool (v : object) : bool :=
  match v with ObjBool _ => true | _ => false end.

(** *** math/big: the [String] method of [big.Int] *)

Definition digitChar (d : Z) : ascii := byteOfZ (48 + d).

Fixpoint decimalDigits (fuel : nat) (n : Z) (acc : string) : string :=
  match fuel with
  | O => acc
  | S fuel' =>
    let acc' := String (digitChar (n mod 10)) acc in
    if (n <? 10)%Z then acc' else decimalDigits fuel' (n / 10) acc'
  end.

(** The decimal digits of [n >= 0]; there are at most as many as binary
    digits. *)
Definition natString (n : Z) : string :=
  decimalDigits (S (Z.to_nat (Z.log2 n))) n "".

Definition bigInt_String (z : Z) : string :=
  if (z <? 0)%Z then String "-" (natString (- z)) else natString z.

Definition newEnvironment (parent : environment) (symbol : string)
    (value : object) : environment :=
  EnvFrame parent symbol value.

Definition extend (e : environment) (symbol : string) (value : object)
  : environment :=
  newEnvironment e symbol value.

Definition builtinAdd : object := ObjFunc FuncAdd.
Definition builtinIf : object := ObjFunc FuncIf.
Definition builtinGt : object := ObjFunc FuncGt.

Definition defaultEnvironment : environment :=
  extend (extend (newEnvironment EnvNil "add" builtinAdd) "if" builtinIf)
         "gt" builtinGt.

(** The type assertion [n.val.(string)] of [evalEnv] on the payload of an
    error node: the payload is an error value, whose dynamic type is never
    [string], so the assertion fails. *)
Definition assertString (e : errorVal) : option string :=
  match e with
  | ExpectError _ _ => None
  | ErrorString _ => None
  end.

Section Evaluator.

(** The text that the verb [%p] prints for the function value or the
    [*lamObject] held by an object: an address chosen by the Go runtime. *)
Variable fmtPointer : object -> string.

Definition object_String (v : object) : string :=
  match v with
  | ObjError msg => msg
  | ObjBool b => if b then "true" else "false"
  | ObjNumber n => bigInt_String n
  | ObjFunc _ => "<function " ++ fmtPointer v ++ ">"
  | ObjLam param _ _ => "<lam " ++ param ++ " " ++ fmtPointer v ++ ">"
  end.

Definition errorObject (msg : string) : object := ObjError msg.

(** [funcObject.apply]: the body of the Go function value.  The assertions
    to [big.Int] and to [bool] on a captured variable panic when
    the variable holds something else. *)
Definition funcObject_apply (f : funcObject) (v : object) : outcome object :=
  match f with
  | FuncAdd =>
    if negb (isObjNumber v)
    then Ret (errorObject ("add: not a number: '" ++ object_String v ++ "'"))
    else Ret (ObjFunc (FuncAdd1 v))
  | FuncAdd1 a =>
    if negb (isObjNumber v)
    then Ret (errorObject ("add: not a number: '" ++ object_String v ++ "'"))
    else
      match a, v with
      | ObjNumber an, ObjNumber bn => Ret (ObjNumber (an + bn))
      | _, _ => Panic "interface conversion: interface {} is not *big.Int"
      end
  | FuncIf =>
    if negb (isObjBool v)
    then Ret (errorObject ("if: not a bool: '" ++ object_String v ++ "'"))
    else Ret (ObjFunc (FuncIf1 v))
  | FuncIf1 a => Ret (ObjFunc (FuncIf2 a v))
  | FuncIf2 a b =>
    match a with
    | ObjBool cond => if cond then Ret b else Ret v
    | _ => Panic "interface conversion: interface {} is not bool"
    end
  | FuncGt =>
    if negb (isObjNumber v)
    then Ret (errorObject ("gt: not a number: '" ++ object_String v ++ "'"))
    else Ret (ObjFunc (FuncGt1 v))
  | FuncGt1 a =>
    if negb (isObjNumber v)
    then Ret (errorObject ("gt: not a number: '" ++ object_String v ++ "'"))
    else
      match a, v with
      | ObjNumber an, ObjNumber bn => Ret (ObjBool (an >? bn)%Z)
      | _, _ => Panic "interface conversion: interface {} is not *big.Int"
      end
  end.

Fixpoint lookup (e : environment) (symbol : string) : object :=
  match e with
  | EnvNil => errorObject ("unknown identifier: '" ++ symbol ++ "'")
  | EnvFrame parent sym value =>
    if symbol =? sym then value else lookup parent symbol
  end.

(** [fn.val.(applyer)] followed by [apply]: function values and lambda
    objects implement [applyer], a [bool], a [*big.Int] and a [string] do
    not.  [lamObject.apply] calls [evalEnv] back. *)
Definition apply (evalEnv : node -> environment -> outcome object)
    (fn arg : object) : outcome object :=
  match fn with
  | ObjFunc f => funcObject_apply f arg
  | ObjLam param body env => evalEnv body (extend env param arg)
  | _ =>
    Ret (errorObject ("apply: invalid function: '" ++ object_String fn ++ "'"))
  end.

Fixpoint evalEnv (fuel : nat) (n : node) (env : environment)
  : outcome object :=
  match fuel with
  | O => OutOfFuel
  | S fuel' =>
    match n with
    | NodeApp fn arg =>
      match evalEnv fuel' fn env with
      | Ret fnv =>
        if isObjError fnv then Ret fnv
        else
          match evalEnv fuel' arg env with
          | Ret argv =>
            if isObjError argv then Ret argv
            else apply (evalEnv fuel') fnv argv
          | Panic msg => Panic msg
          | OutOfFuel => OutOfFuel
          end
      | Panic msg => Panic msg
      | OutOfFuel => OutOfFuel
      end
    | NodeLam param body => Ret (ObjLam param body env)
    | NodeNumber z => Ret (ObjNumber z)
    | NodeBool b => Ret (ObjBool b)
    | NodeIdentifier name => Ret (lookup env name)
    | NodeError e =>
      match assertString e with
      | Some s => Ret (errorObject ("parse error: " ++ s))
      | None => Panic "interface conversion: interface {} is not string"
      end
    end
  end.

Definition eval (fuel : nat) (n : node) : outcome object :=
  evalEnv fuel n defaultEnvironment.

Definition evalString (fuel : nat) (s : string) : outcome object :=
  match parseString s with
  | Ret n => eval fuel n
  | Panic msg => Panic msg
  | OutOfFuel => OutOfFuel
  end.

(** The evaluation of [n] in [env] returns the object [v]. *)
Definition returns (n : node) (env : environment) (v : object) : Prop :=
  exists fuel, evalEnv fuel n env = Ret v.

(** The evaluation of [n] in [env] never returns. *)
Definition diverges (n : node) (env : environment) : Prop :=
  forall fuel, evalEnv fuel n env = OutOfFuel.

End Evaluator.

(** ** Expressions and environments used in the statements *)

(** [app app app if c t e]. *)
Definition ifChain (c t e : node) : node :=
  NodeApp (NodeApp (NodeApp (NodeIdentifier "if") c) t) e.

(** [app app add x y]. *)
Definition addChain (x y : node) : node :=
  NodeApp (NodeApp (NodeIdentifier "add") x) y.

(** The environment [env] extended with the bindings [frames], the last one
    innermost. *)
Definition extendAll (env : environment) (frames : list (string * object))
  : environment :=
  fold_left (fun e f => extend e (fst f) (snd f)) frames env.

Definition bindsName (x : string) (frames : list (string * object)) : bool :=
  existsb (fun f => fst f =? x) frames.

(** ** main.go: the formatter *)

Definition isSimpleNode (n : node) : bool :=
  match n with
  | NodeIdentifier _ | NodeNumber _ | NodeBool _ => true
  | _ => false
  end.

(** What the verb [%v] prints for the payload of a simple node: the name of
    an identifier, the decimal text of a number, [true] or [false]. *)
Definition valString (n : node) : string :=
  match n with
  | NodeIdentifier name => name
  | NodeNumber z => bigInt_String z
  | NodeBool b => if b then "true" else "false"
  | _ => ""
  end.

Definition formatIndent : string := "    ".

Definition newline : string := String (ascii_of_nat 10) "".

(** [format]: the text written to the standard output.  Nothing is printed
    for an error node. *)
Fixpoint format (n : node) (indent : string) : string :=
  match n with
  | NodeIdentifier _ | NodeNumber _ | NodeBool _ => indent ++ valString n
  | NodeLam param body =>
    (indent ++ "lam " ++ param ++ " ")
    ++ (if isSimpleNode body then valString body
        else newline ++ format body (indent ++ formatIndent))
  | NodeApp fn arg =>
    (indent ++ "app")
    ++ (if isSimpleNode fn && isSimpleNode arg
        then " " ++ valString fn ++ " " ++ valString arg
        else newline ++ format fn (indent ++ formatIndent)
             ++ newline ++ format arg (indent ++ formatIndent))
  | NodeError _ => ""
  end.

(** ** Auxiliary definitions of the statements about the lexer and parser *)

Fixpoint allBytes (q : ascii -> bool) (s : string) : bool :=
  match s with
  | EmptyString => true
  | String c s' => q c && allBytes q s'
  end.

Definition isDigitByte (c : ascii) : bool := isDigit (byteZ c).

Definition isLetterByte (c : ascii) : bool := isLetter (byteZ c).

Definition isWordByte (c : ascii) : bool :=
  isDigit (byteZ c) || isLetter (byteZ c).

(** The loop condition of [lexIdentifier], on a rune. *)
Definition isWordRune (r : Z) : bool := isDigit r || isLetter r.

(** What [lexer_next] reads when the unread input is [rest]: the rune and
    its width. *)
Definition peekRune (rest : string) : Z * nat :=
  match rest with
  | EmptyString => (eof, 0)
  | _ => DecodeRuneInString rest
  end.

(** No identifier node of the tree is named [lam] or [app]. *)
Fixpoint noKeywordIdentifier (n : node) : bool :=
  match n with
  | NodeError _ => true
  | NodeApp fn arg => noKeywordIdentifier fn && noKeywordIdentifier arg
  | NodeLam _ body => noKeywordIdentifier body
  | NodeIdentifier name => negb ((name =? "lam") || (name =? "app"))
  | NodeNumber _ => true
  | NodeBool _ => true
  end.

(** No node of the tree is an error node. *)
Fixpoint noErrorNode (n : node) : bool :=
  match n with
  | NodeError _ => false
  | NodeApp fn arg => noErrorNode fn && noErrorNode arg
  | NodeLam _ body => noErrorNode body
  | _ => true
  end.

(** The value of a decimal numeral in positional notation: the digit [d] at
    position [i] from the right counts for [d * 10^i]. *)
Fixpoint positionalValue (s : string) : Z :=
  match s with
  | EmptyString => 0
  | String c s' =>
    ((byteZ c - 48) * 10 ^ Z.of_nat (String.length s') + positionalValue s')%Z
  end.

(** A number literal: an optional minus sign and one or more decimal
    digits. *)
Definition isNumberLiteral (s : string) : bool :=
  match s with
  | EmptyString => false
  | String c ds =>
    if (c =? "-")%char then negb (ds =? "") && allBytes isDigitByte ds
    else allBytes isDigitByte s
  end.

(** The integer that a number literal denotes. *)
Definition literalValue (s : string) : Z :=
  match s with
  | EmptyString => 0%Z
  | String c ds =>
    if (c =? "-")%char then (- positionalValue ds)%Z else positionalValue s
  end.

(** An address text for [%p], used in the instances at concrete inputs. *)
Definition samplePointer : object -> string := fun _ => "0xc000010000".

(** The invariant of the runtime values: a function value that a builtin
    returned captured an argument of the kind the builtin checked, and a
    closure holds a body without error nodes and an environment of such
    values. *)
Fixpoint objectOk (v : object) : bool :=
  match v with
  | ObjError _ | ObjBool _ | ObjNumber _ => true
  | ObjFunc f => funcOk f
  | ObjLam _ body env => noErrorNode body && envOk env
  end
with funcOk (f : funcObject) : bool :=
  match f with
  | FuncAdd | FuncIf | FuncGt => true
  | FuncAdd1 a => isObjNumber a
  | FuncIf1 a => isObjBool a
  | FuncIf2 a b => isObjBool a && objectOk b
  | FuncGt1 a => isObjNumber a
  end
with envOk (e : environment) : bool :=
  match e with
  | EnvNil => true
  | EnvFrame parent _ value => envOk parent && objectOk value
  end.

(** The symbol is bound by a frame of the environment. *)
Fixpoint binds (e : environment) (symbol : string) : bool :=
  match e with
  | EnvNil => false
  | EnvFrame parent sym _ => (symbol =? sym) || binds parent symbol
  end.

(** A word: a letter, then letters and digits. *)
Definition isWord (s : string) : bool :=
  match s with
  | EmptyString => false
  | String c ws => isLetterByte c && allBytes isWordByte ws
  end.

(** The trees that the grammar can denote: identifiers are words other than
    the keywords and the boolean literals, parameters are words other than
    the boolean literals, and there is no error node. *)
Fixpoint wellFormed (n : node) : bool :=
  match n with
  | NodeError _ => false
  | NodeApp fn arg => wellFormed fn && wellFormed arg
  | NodeLam param body =>
    isWord param && negb ((param =? "true") || (param =? "false"))
    && wellFormed body
  | NodeIdentifier name =>
    isWord name
    && negb ((name =? "lam") || (name =? "app")
             || (name =? "true") || (name =? "false"))
  | NodeNumber _ => true
  | NodeBool _ => true
  end.

Fixpoint depth (n : node) : nat :=
  match n with
  | NodeApp fn arg => S (max (depth fn) (depth arg))
  | NodeLam _ body => S (depth body)
  | _ => 1
  end.

Definition isSpaceByte (c : ascii) : bool := isSpace (byteZ c).

(** What the parser relies on in a token: the text of an identifier token is
    a word other than [true] and [false]. *)
Definition tokenOk (t : token) : bool :=
  match typ t with
  | tokenIdentifier =>
    isWord (val t) && negb ((val t =? "true") || (val t =? "false"))
  | _ => true
  end.

(** The invariant of the parser state between two productions: the lexer is
    within its input and a token pushed back is well-shaped. *)
Definition parserInv (p : parser) : Prop :=
  pos (lex p) <= String.length (input (lex p))
  /\ match buf p with
     | Some t => tokenOk t = true
     | None => True
     end.

(** ** Properties of the lexer *)

Lemma drop_nil (n : nat) : drop n "" = "".
Proof. now destruct n. Qed.

Lemma length_drop (n : nat) : forall s,
  String.length (drop n s) = String.length s - n.
Proof.
  induction n as [|n IH]; intros [|c s]; simpl; auto using Nat.sub_0_r.
Qed.

Lemma drop_add (n m : nat) : forall s, drop (n + m) s = drop m (drop n s).
Proof.
  induction n as [|n IH]; intros s; [reflexivity|].
  destruct s as [|c s]; simpl; [now rewrite drop_nil|apply IH].
Qed.

Lemma drop_cons_inv (n : nat) : forall s c t,
  drop n s = String c t -> n < String.length s /\ drop (S n) s = t.
Proof.
  induction n as [|n IH]; intros s c t H.
  - simpl in H. subst s. simpl. split; [lia|reflexivity].
  - destruct s as [|c' s]; [discriminate H|].
    simpl in H. apply IH in H as [Hlt Hd]. simpl. split; [lia|exact Hd].
Qed.

Lemma drop_empty_inv (n : nat) (s : string) :
  drop n s = "" -> String.length s <= n.
Proof.
  intros H. pose proof (length_drop n s) as L. rewrite H in L. simpl in L. lia.
Qed.

Lemma drop_length_app (a b : string) : drop (String.length a) (a ++ b) = b.
Proof. induction a as [|c a IH]; simpl; auto. Qed.

Lemma take_length_app (a : string) (k : nat) (b : string) :
  take (String.length a + k) (a ++ b) = a ++ take k b.
Proof. induction a as [|c a IH]; simpl; [reflexivity|now rewrite IH]. Qed.

Lemma take_all (s : string) : take (String.length s) s = s.
Proof. induction s as [|c s IH]; simpl; [reflexivity|now rewrite IH]. Qed.

Lemma append_nil_r (s : string) : s ++ "" = s.
Proof. induction s as [|c s IH]; simpl; [reflexivity|now rewrite IH]. Qed.

Lemma append_assoc (a b c : string) : (a ++ b) ++ c = a ++ b ++ c.
Proof. induction a as [|x a IH]; simpl; [reflexivity|now rewrite IH]. Qed.

Lemma length_app (a b : string) :
  String.length (a ++ b) = String.length a + String.length b.
Proof. induction a as [|x a IH]; simpl; [reflexivity|now rewrite IH]. Qed.

(** *** Decoding *)

Lemma byteZ_range (c : ascii) : (0 <= byteZ c < 256)%Z.
Proof.
  unfold byteZ. pose proof (N_ascii_bounded c) as H. lia.
Qed.

Lemma DecodeRuneInString_ascii (c : ascii) (t : string) :
  (byteZ c < 128)%Z -> DecodeRuneInString (String c t) = (byteZ c, 1).
Proof.
  intros H. unfold DecodeRuneInString.
  apply Z.ltb_lt in H. now rewrite H.
Qed.

(** A rune of a non-empty string takes at least one byte and no more than
    there are. *)
Lemma DecodeRuneInString_width (s : string) :
  s <> "" ->
  1 <= snd (DecodeRuneInString s) <= String.length s.
Proof.
  intros Hs. destruct s as [|c0 t0]; [congruence|].
  unfold DecodeRuneInString.
  repeat match goal with
         | |- context [if ?b then _ else _] => destruct b
         | |- context [match ?t with EmptyString => _ | String _ _ => _ end] =>
           destruct t
         end; simpl; lia.
Qed.

Lemma peekRune_width (rest : string) :
  snd (peekRune rest) <= String.length rest
  /\ (rest <> "" -> 1 <= snd (peekRune rest)).
Proof.
  destruct rest as [|c t]; [simpl; split; [lia|congruence]|].
  pose proof (DecodeRuneInString_width (String c t)) as H.
  unfold peekRune. split; [apply H; discriminate|intros _; apply H; discriminate].
Qed.

(** *** [lexer_next] *)

Lemma lexer_next_peek (inp : string) (ps st w : nat) :
  ps <= String.length inp ->
  lexer_next (mkLexer inp ps st w) =
  Ret (fst (peekRune (drop ps inp)),
       mkLexer inp (ps + snd (peekRune (drop ps inp))) st
               (snd (peekRune (drop ps inp)))).
Proof.
  intros Hle. unfold lexer_next. simpl.
  destruct (String.length inp <=? ps)%nat eqn:E.
  - apply Nat.leb_le in E.
    assert (Hd : drop ps inp = "").
    { pose proof (length_drop ps inp) as L.
      destruct (drop ps inp); [reflexivity|simpl in L; lia]. }
    rewrite Hd. simpl. now rewrite Nat.add_0_r.
  - apply Nat.leb_gt in E.
    pose proof (length_drop ps inp) as L.
    destruct (drop ps inp) as [|c t] eqn:Hd; [simpl in L; lia|].
    unfold peekRune. now destruct (DecodeRuneInString (String c t)).
Qed.

(** *** The scanning loops *)

Lemma nextWhile_width_irrelevant (p : Z -> bool) (fuel : nat)
    (inp : string) (ps st w w' : nat) :
  nextWhile p fuel (mkLexer inp ps st w) =
  nextWhile p fuel (mkLexer inp ps st w').
Proof. destruct fuel; reflexivity. Qed.

Lemma nextWhile_fuel_mono (p : Z -> bool) (fuel : nat) :
  forall l r, nextWhile p fuel l = Ret r ->
  forall fuel', fuel <= fuel' -> nextWhile p fuel' l = Ret r.
Proof.
  induction fuel as [|fuel IH]; intros l r H fuel' Hle; [discriminate H|].
  destruct fuel' as [|fuel']; [lia|].
  simpl in H |- *. unfold bind in H |- *.
  destruct (lexer_next l) as [[ch l']| |]; try discriminate H.
  destruct (p ch); [apply IH with (fuel' := fuel') in H; [exact H|lia]|exact H].
Qed.

(** The loop steps over a run of one-byte runes that satisfy [p]. *)
Lemma nextWhile_run (p : Z -> bool) (run : string) :
  forall (fuel : nat) (inp : string) (ps st w w' : nat) (rest : string),
    drop ps inp = run ++ rest ->
    allBytes (fun c => (byteZ c <? 128)%Z && p (byteZ c)) run = true ->
    nextWhile p (String.length run + fuel) (mkLexer inp ps st w) =
    nextWhile p fuel (mkLexer inp (ps + String.length run) st w').
Proof.
  induction run as [|c run IH]; intros fuel inp ps st w w' rest Hd Hall.
  - simpl. rewrite Nat.add_0_r. apply nextWhile_width_irrelevant.
  - simpl in Hall. apply andb_true_iff in Hall as [Hc Hall].
    apply andb_true_iff in Hc as [Hascii Hp]. apply Z.ltb_lt in Hascii.
    simpl in Hd. pose proof (drop_cons_inv _ _ _ _ Hd) as [Hlt Hd'].
    change (String.length (String c run) + fuel)
      with (S (String.length run + fuel)).
    cbn [nextWhile]. unfold bind at 1.
    rewrite lexer_next_peek by lia. rewrite Hd. unfold peekRune.
    rewrite (DecodeRuneInString_ascii _ _ Hascii). cbn [fst snd]. rewrite Hp.
    rewrite (IH fuel inp (ps + 1) st 1 w' rest).
    + f_equal. f_equal. simpl. lia.
    + rewrite Nat.add_1_r. exact Hd'.
    + exact Hall.
Qed.

(** The loop stops at the first rune that does not satisfy [p]. *)
Lemma nextWhile_stop (p : Z -> bool) (fuel : nat) (inp : string)
    (ps st w : nat) :
  ps <= String.length inp ->
  p (fst (peekRune (drop ps inp))) = false ->
  nextWhile p (S fuel) (mkLexer inp ps st w) =
  Ret (fst (peekRune (drop ps inp)),
       mkLexer inp (ps + snd (peekRune (drop ps inp))) st
               (snd (peekRune (drop ps inp)))).
Proof.
  intros Hle Hp. cbn [nextWhile]. unfold bind.
  rewrite lexer_next_peek by assumption. now rewrite Hp.
Qed.

Lemma scanWhile_run (p : Z -> bool) (run rest inp : string) (ps st w : nat) :
  drop ps inp = run ++ rest ->
  ps <= String.length inp ->
  allBytes (fun c => (byteZ c <? 128)%Z && p (byteZ c)) run = true ->
  p (fst (peekRune rest)) = false ->
  scanWhile p (mkLexer inp ps st w) =
  Ret (fst (peekRune rest),
       mkLexer inp (ps + String.length run + snd (peekRune rest)) st
               (snd (peekRune rest))).
Proof.
  intros Hd Hle Hall Hp. unfold scanWhile. cbn [input pos].
  pose proof (length_drop ps inp) as L. rewrite Hd, length_app in L.
  assert (Hrest : drop (ps + String.length run) inp = rest).
  { rewrite drop_add, Hd. apply drop_length_app. }
  apply nextWhile_fuel_mono with (fuel := String.length run + 1); [|lia].
  rewrite (nextWhile_run p run 1 inp ps st w w rest Hd Hall).
  rewrite nextWhile_stop; rewrite ?Hrest; [reflexivity|lia|exact Hp].
Qed.

(** Whatever the input, a scanning loop returns: with a rune that does not
    satisfy [p], after moving forward, within the input. *)
Lemma nextWhile_total (p : Z -> bool) (Hp : p eof = false) (fuel : nat) :
  forall (l : lexer),
    pos l <= String.length (input l) ->
    String.length (input l) - pos l < fuel ->
    exists ch l',
      nextWhile p fuel l = Ret (ch, l')
      /\ p ch = false
      /\ input l' = input l /\ start l' = start l
      /\ pos l + width l' <= pos l'
      /\ pos l' <= String.length (input l)
      /\ ch = fst (peekRune (drop (pos l' - width l') (input l)))
      /\ width l' = snd (peekRune (drop (pos l' - width l') (input l))).
Proof.
  induction fuel as [|fuel IH]; intros [inp ps st w] Hle Hfuel; [lia|].
  cbn [input pos start width] in *.
  cbn [nextWhile]. unfold bind.
  rewrite lexer_next_peek by assumption.
  pose proof (peekRune_width (drop ps inp)) as [Hw1 Hw2].
  rewrite length_drop in Hw1.
  destruct (p (fst (peekRune (drop ps inp)))) eqn:Hpc.
  - assert (Hne : drop ps inp <> "").
    { intros E. rewrite E in Hpc. simpl in Hpc. congruence. }
    specialize (Hw2 Hne).
    destruct (IH (mkLexer inp (ps + snd (peekRune (drop ps inp))) st
                          (snd (peekRune (drop ps inp)))))
      as (ch & l' & H & Hch & Hin & Hst & Hpos & Hlen & Hpk);
      cbn [input pos start width] in *; try lia.
    exists ch, l'. repeat split; try assumption; try lia; apply Hpk.
  - eexists _, _. split; [reflexivity|]. cbn [input pos start width].
    replace (ps + snd (peekRune (drop ps inp)) - snd (peekRune (drop ps inp)))
      with ps by lia.
    repeat split; try assumption; lia.
Qed.

Lemma scanWhile_total (p : Z -> bool) (Hp : p eof = false) (l : lexer) :
  pos l <= String.length (input l) ->
  exists ch l',
    scanWhile p l = Ret (ch, l')
    /\ p ch = false
    /\ input l' = input l /\ start l' = start l
    /\ pos l + width l' <= pos l'
    /\ pos l' <= String.length (input l)
    /\ ch = fst (peekRune (drop (pos l' - width l') (input l)))
    /\ width l' = snd (peekRune (drop (pos l' - width l') (input l))).
Proof.
  intros Hle. unfold scanWhile. apply nextWhile_total; [exact Hp|exact Hle|lia].
Qed.

(** *** Tokens *)

Lemma allBytes_impl (q q' : ascii -> bool) (s : string) :
  (forall c, q c = true -> q' c = true) ->
  allBytes q s = true -> allBytes q' s = true.
Proof.
  intros H. induction s as [|c s IH]; simpl; [reflexivity|].
  intros Hs. apply andb_true_iff in Hs as [Hc Hs].
  now rewrite (H _ Hc), IH.
Qed.

Lemma isDigit_ascii (r : Z) : isDigit r = true -> (r <? 128)%Z = true.
Proof. unfold isDigit. intros H. apply andb_true_iff in H. lia. Qed.

Lemma isLetter_ascii (r : Z) : isLetter r = true -> (r <? 128)%Z = true.
Proof.
  unfold isLetter. intros H.
  apply orb_true_iff in H as [H|H]; apply andb_true_iff in H; lia.
Qed.

Lemma isSpace_ascii (r : Z) : isSpace r = true -> (r <? 128)%Z = true.
Proof.
  unfold isSpace. intros H. repeat (apply orb_true_iff in H as [H|H]); lia.
Qed.

Lemma peekRune_ascii (c : ascii) (t : string) :
  (byteZ c <? 128)%Z = true -> peekRune (String c t) = (byteZ c, 1).
Proof.
  intros H. unfold peekRune. apply DecodeRuneInString_ascii. lia.
Qed.

Lemma lexer_val_ok (inp : string) (ps st w : nat) :
  st <= ps -> ps <= String.length inp ->
  lexer_val (mkLexer inp ps st w) =
  Ret (take (ps - st) (drop st inp), mkLexer inp ps st w).
Proof.
  intros H1 H2. unfold lexer_val. cbn [input pos start].
  apply Nat.leb_le in H1, H2. now rewrite H1, H2.
Qed.

Lemma skipSpaces_run (sp rest inp : string) (ps st w : nat) :
  drop ps inp = sp ++ rest ->
  ps <= String.length inp ->
  allBytes (fun c => isSpace (byteZ c)) sp = true ->
  isSpace (fst (peekRune rest)) = false ->
  skipSpaces (mkLexer inp ps st w) =
  Ret (tt, mkLexer inp (ps + String.length sp) (ps + String.length sp)
                   (snd (peekRune rest))).
Proof.
  intros Hd Hle Hall Hp. unfold skipSpaces, bind.
  rewrite (scanWhile_run isSpace sp rest inp ps st w Hd Hle); try assumption.
  - unfold lexer_unnext. cbn [input pos start width].
    do 3 f_equal; lia.
  - revert Hall. apply allBytes_impl. intros c Hc.
    now rewrite (isSpace_ascii _ Hc), Hc.
Qed.
Lemma take_prefix (pre mid rest : string) (k : nat) :
  take (String.length pre + String.length mid + k) (pre ++ mid ++ rest) =
  pre ++ mid ++ take k rest.
Proof.
  rewrite <- Nat.add_assoc, take_length_app. f_equal. apply take_length_app.
Qed.

Lemma lexNumber_tail (inp : string) (ps w : nat) (pre ds rest : string) :
  drop ps inp = pre ++ ds ++ rest ->
  ps <= String.length inp ->
  allBytes isDigitByte ds = true ->
  isDigit (fst (peekRune rest)) = false ->
  (ch <- scanWhile isDigit ;;
   if negb (isBoundary ch) then
     v <- lexer_val ;;
     ret (errorToken ("bad number syntax: '" ++ v ++ "'"))
   else
     lexer_unnext ;;;
     lexer_emit tokenNumber)
    (mkLexer inp (ps + String.length pre) ps w) =
  let n := String.length pre + String.length ds in
  if isBoundary (fst (peekRune rest))
  then Ret (mktok tokenNumber (pre ++ ds),
            mkLexer inp (ps + n) (ps + n) (snd (peekRune rest)))
  else Ret (errorToken ("bad number syntax: '"
                        ++ (pre ++ ds ++ take (snd (peekRune rest)) rest)
                        ++ "'"),
            mkLexer inp (ps + n + snd (peekRune rest)) ps (snd (peekRune rest))).
Proof.
  intros Hd Hps Hds Hstop.
  pose proof (length_drop ps inp) as Hlen.
  rewrite Hd, !length_app in Hlen.
  pose proof (peekRune_width rest) as [Hw _].
  assert (Hds' : allBytes (fun c => (byteZ c <? 128)%Z && isDigit (byteZ c)) ds = true).
  { revert Hds. apply allBytes_impl. intros c Hc. unfold isDigitByte in Hc.
    now rewrite (isDigit_ascii _ Hc), Hc. }
  assert (Hd2 : drop (ps + String.length pre) inp = ds ++ rest).
  { rewrite drop_add, Hd. apply drop_length_app. }
  unfold bind at 1.
  rewrite (scanWhile_run isDigit ds rest inp _ ps w Hd2) by (assumption || lia).
  cbv zeta.
  destruct (isBoundary (fst (peekRune rest))); cbn [negb].
  - unfold bind, lexer_unnext, lexer_emit, bind. cbn [input pos start width].
    rewrite lexer_val_ok by lia. cbn [input pos start width].
    replace (ps + String.length pre + String.length ds + snd (peekRune rest)
             - snd (peekRune rest)) with (ps + (String.length pre + String.length ds)) by lia.
    replace (ps + (String.length pre + String.length ds) - ps)
      with (String.length pre + String.length ds + 0) by lia.
    rewrite Hd, take_prefix. cbn [take].
    destruct rest; cbn [take]; rewrite append_nil_r; reflexivity.
  - unfold bind. rewrite lexer_val_ok by lia.
    replace (ps + String.length pre + String.length ds + snd (peekRune rest) - ps)
      with (String.length pre + String.length ds + snd (peekRune rest)) by lia.
    rewrite Hd, take_prefix. unfold ret.
    do 3 f_equal. lia.
Qed.

Lemma lexNumber_run (inp : string) (ps w : nat) (sign : string)
    (d0 : ascii) (ds rest : string) :
  drop ps inp = sign ++ String d0 ds ++ rest ->
  sign = "" \/ sign = "-" ->
  allBytes isDigitByte (String d0 ds) = true ->
  isDigit (fst (peekRune rest)) = false ->
  lexNumber (mkLexer inp ps ps w) =
  let n := String.length sign + S (String.length ds) in
  if isBoundary (fst (peekRune rest))
  then Ret (mktok tokenNumber (sign ++ String d0 ds),
            mkLexer inp (ps + n) (ps + n) (snd (peekRune rest)))
  else Ret (errorToken ("bad number syntax: '"
                        ++ (sign ++ String d0 ds ++ take (snd (peekRune rest)) rest)
                        ++ "'"),
            mkLexer inp (ps + n + snd (peekRune rest)) ps (snd (peekRune rest))).
Proof.
  intros Hd Hsign Hall Hstop.
  pose proof (length_drop ps inp) as Hlen.
  rewrite Hd, length_app in Hlen. cbn [String.length append] in Hlen.
  rewrite length_app in Hlen.
  cbn [allBytes] in Hall. apply andb_true_iff in Hall as [Hd0 Hds].
  unfold isDigitByte in Hd0.
  assert (H45 : (byteZ d0 =? 45)%Z = false).
  { unfold isDigit in Hd0. apply andb_true_iff in Hd0. lia. }
  unfold lexNumber.
  destruct Hsign as [-> | ->].
  - cbn [append String.length Nat.add] in Hd, Hlen.
    unfold bind at 1. rewrite lexer_next_peek by lia. rewrite Hd.
    rewrite (peekRune_ascii _ _ (isDigit_ascii _ Hd0)). cbn [fst snd].
    rewrite H45. unfold bind at 1, ret at 1.
    rewrite Hd0. cbn [negb].
    etransitivity;
      [exact (lexNumber_tail inp ps 1 (String d0 "") ds rest Hd
                ltac:(lia) Hds Hstop)|].
    reflexivity.
  - cbn [append String.length Nat.add] in Hd, Hlen.
    unfold bind at 1. rewrite lexer_next_peek by lia. rewrite Hd.
    rewrite peekRune_ascii by reflexivity. cbn [fst snd].
    change (byteZ "-" =? 45)%Z with true. cbv iota.
    unfold bind at 1. rewrite lexer_next_peek by (cbn [pos input]; lia).
    pose proof (drop_cons_inv _ _ _ _ Hd) as [_ Hd1].
    replace (ps + 1) with (S ps) by lia. rewrite Hd1.
    rewrite (peekRune_ascii _ _ (isDigit_ascii _ Hd0)). cbn [fst snd].
    rewrite Hd0. cbn [negb].
    replace (S ps + 1) with (ps + 2) by lia.
    etransitivity;
      [exact (lexNumber_tail inp ps 1 (String "-" (String d0 "")) ds rest Hd
                ltac:(lia) Hds Hstop)|].
    reflexivity.
Qed.

(** A number token or a "bad number syntax" error: the lexer at [ps], before
    an optional minus sign, the digits [d0 ds] and then [rest]. *)
Lemma nextToken_number (inp : string) (ps st w : nat) (sign : string)
    (d0 : ascii) (ds rest : string) :
  drop ps inp = sign ++ String d0 ds ++ rest ->
  sign = "" \/ sign = "-" ->
  allBytes isDigitByte (String d0 ds) = true ->
  isDigit (fst (peekRune rest)) = false ->
  nextToken (mkLexer inp ps st w) =
  let n := String.length sign + S (String.length ds) in
  if isBoundary (fst (peekRune rest))
  then Ret (mktok tokenNumber (sign ++ String d0 ds),
            mkLexer inp (ps + n) (ps + n) (snd (peekRune rest)))
  else Ret (errorToken ("bad number syntax: '"
                        ++ (sign ++ String d0 ds ++ take (snd (peekRune rest)) rest)
                        ++ "'"),
            mkLexer inp (ps + n + snd (peekRune rest)) ps (snd (peekRune rest))).
Proof.
  intros Hd Hsign Hall Hstop.
  pose proof (length_drop ps inp) as Hlen.
  rewrite Hd, length_app in Hlen. cbn [String.length append] in Hlen.
  assert (Hd0 : isDigit (byteZ d0) = true).
  { cbn [allBytes] in Hall. now apply andb_true_iff in Hall as [Hd0 _]. }
  assert (Hfirst : exists c t, drop ps inp = String c t
                               /\ ((byteZ c =? 45)%Z || isDigit (byteZ c) = true)
                               /\ (byteZ c <? 128)%Z = true
                               /\ isSpace (byteZ c) = false).
  { destruct Hsign as [-> | ->]; cbn [append] in Hd; eexists _, _;
      (split; [exact Hd|]).
    - rewrite Hd0, orb_true_r. split; [reflexivity|].
      split; [now apply isDigit_ascii|].
      unfold isDigit in Hd0. unfold isSpace.
      apply andb_true_iff in Hd0. lia.
    - repeat split; reflexivity. }
  destruct Hfirst as (c & t & Hc & Hkind & Hascii & Hnsp).
  unfold nextToken. unfold bind at 1.
  rewrite (skipSpaces_run "" (String c t) inp ps st w); cbn [append];
    [|exact Hc|lia|reflexivity|now rewrite peekRune_ascii].
  cbn [String.length]. rewrite Nat.add_0_r.
  unfold bind at 1. rewrite lexer_next_peek by lia. rewrite Hc.
  rewrite peekRune_ascii by assumption. cbn [fst snd]. rewrite Hkind.
  unfold bind at 1, lexer_unnext at 1. cbn [input pos start width].
  replace (ps + 1 - 1) with ps by lia.
  now apply lexNumber_run.
Qed.

(** An identifier or boolean token, or a "bad identifier syntax" error: the
    lexer at [ps], before the letter [c0], the letters and digits [ws] and
    then [rest]. *)
Lemma nextToken_identifier (inp : string) (ps st w : nat)
    (c0 : ascii) (ws rest : string) :
  drop ps inp = String c0 ws ++ rest ->
  isLetterByte c0 = true ->
  allBytes isWordByte ws = true ->
  isWordRune (fst (peekRune rest)) = false ->
  nextToken (mkLexer inp ps st w) =
  let n := S (String.length ws) in
  if isBoundary (fst (peekRune rest))
  then Ret (mktok (if (String c0 ws =? "true") || (String c0 ws =? "false")
                   then tokenBool else tokenIdentifier) (String c0 ws),
            mkLexer inp (ps + n) (ps + n) (snd (peekRune rest)))
  else Ret (errorToken ("bad identifier syntax: '"
                        ++ (String c0 ws ++ take (snd (peekRune rest)) rest)
                        ++ "'"),
            mkLexer inp (ps + n + snd (peekRune rest)) ps (snd (peekRune rest))).
Proof.
  intros Hd Hc0 Hws Hstop. unfold isLetterByte in Hc0.
  cbn [append] in Hd.
  pose proof (length_drop ps inp) as Hlen.
  rewrite Hd in Hlen. cbn [String.length] in Hlen. rewrite length_app in Hlen.
  pose proof (peekRune_width rest) as [Hw _].
  assert (Hascii : (byteZ c0 <? 128)%Z = true) by now apply isLetter_ascii.
  assert (Hnd : (byteZ c0 =? 45)%Z || isDigit (byteZ c0) = false).
  { unfold isLetter in Hc0. unfold isDigit.
    apply orb_true_iff in Hc0 as [H|H]; apply andb_true_iff in H; lia. }
  assert (Hnsp : isSpace (byteZ c0) = false).
  { unfold isLetter in Hc0. unfold isSpace.
    apply orb_true_iff in Hc0 as [H|H]; apply andb_true_iff in H; lia. }
  assert (Hws' : allBytes (fun c => (byteZ c <? 128)%Z
                                    && isWordRune (byteZ c)) ws = true).
  { revert Hws. apply allBytes_impl. intros c Hc. unfold isWordByte in Hc.
    unfold isWordRune. rewrite Hc, andb_true_r.
    apply orb_true_iff in Hc as [H|H];
      [now apply isDigit_ascii|now apply isLetter_ascii]. }
  pose proof (drop_cons_inv _ _ _ _ Hd) as [_ Hd1].
  unfold nextToken. unfold bind at 1.
  rewrite (skipSpaces_run "" (String c0 (ws ++ rest)) inp ps st w);
    cbn [append]; [|exact Hd|lia|reflexivity|now rewrite peekRune_ascii].
  cbn [String.length]. rewrite Nat.add_0_r.
  unfold bind at 1. rewrite lexer_next_peek by lia. rewrite Hd.
  rewrite peekRune_ascii by assumption. cbn [fst snd]. rewrite Hnd, Hc0.
  unfold lexIdentifier. unfold bind at 1.
  rewrite (scanWhile_run (fun ch => isDigit ch || isLetter ch) ws rest inp (ps + 1) ps 1);
    [|rewrite Nat.add_1_r; exact Hd1|lia|exact Hws'|exact Hstop].
  cbv zeta.
  destruct (isBoundary (fst (peekRune rest))); cbn [negb].
  - unfold bind at 1, lexer_unnext at 1. cbn [input pos start width].
    unfold bind at 1. rewrite lexer_val_ok by lia.
    replace (ps + 1 + String.length ws + snd (peekRune rest)
             - snd (peekRune rest) - ps)
      with (String.length (String c0 ws) + 0) by (cbn [String.length]; lia).
    rewrite Hd.
    change (String c0 (ws ++ rest)) with (String c0 ws ++ rest).
    rewrite take_length_app. cbn [take]. rewrite append_nil_r.
    unfold lexer_emit, bind. rewrite lexer_val_ok by lia.
    cbn [input pos start width].
    replace (ps + 1 + String.length ws + snd (peekRune rest)
             - snd (peekRune rest) - ps)
      with (String.length (String c0 ws) + 0) by (cbn [String.length]; lia).
    rewrite Hd.
    change (String c0 (ws ++ rest)) with (String c0 ws ++ rest).
    rewrite take_length_app. cbn [take]. rewrite append_nil_r.
    do 3 f_equal; lia.
  - unfold bind. rewrite lexer_val_ok by lia.
    replace (ps + 1 + String.length ws + snd (peekRune rest) - ps)
      with (String.length (String c0 ws) + snd (peekRune rest))
      by (cbn [String.length]; lia).
    rewrite Hd.
    change (String c0 (ws ++ rest)) with (String c0 ws ++ rest).
    rewrite take_length_app. unfold ret. do 3 f_equal. lia.
Qed.

(** The end marker: the lexer at [ps], before spaces that run to the end of
    the input. *)
Lemma nextToken_eof (inp : string) (ps st w : nat) (sp : string) :
  drop ps inp = sp ->
  ps <= String.length inp ->
  allBytes (fun c => isSpace (byteZ c)) sp = true ->
  nextToken (mkLexer inp ps st w) =
  Ret (mktok tokenEOF "",
       mkLexer inp (String.length inp) (String.length inp) 0).
Proof.
  intros Hd Hle Hsp.
  pose proof (length_drop ps inp) as Hlen. rewrite Hd in Hlen.
  assert (Hend : ps + String.length sp = String.length inp) by lia.
  unfold nextToken. unfold bind at 1.
  rewrite (skipSpaces_run sp "" inp ps st w);
    [|now rewrite append_nil_r|exact Hle|exact Hsp|reflexivity].
  rewrite Hend. cbn [peekRune snd].
  unfold bind at 1. rewrite lexer_next_peek by lia.
  assert (E : drop (String.length inp) inp = "").
  { pose proof (length_drop (String.length inp) inp) as L.
    destruct (drop (String.length inp) inp); [reflexivity|simpl in L; lia]. }
  rewrite E. cbn [peekRune fst snd]. rewrite Nat.add_0_r.
  change ((eof =? 45)%Z || isDigit eof) with false.
  change (isLetter eof) with false. cbv iota.
  change (eof =? 40)%Z with false. change (eof =? 41)%Z with false.
  change (eof =? eof)%Z with true. cbv iota.
  unfold lexer_emit, bind. rewrite lexer_val_ok by lia.
  cbn [input pos start width]. rewrite Nat.sub_diag. rewrite E. reflexivity.
Qed.

(** Whitespace before a token is skipped. *)
Lemma nextToken_skip_run (inp : string) (ps st w st' w' : nat)
    (sp rest : string)
    (Hd : drop ps inp = sp ++ rest)
    (Hle : ps <= String.length inp)
    (Hsp : allBytes (fun c => isSpace (byteZ c)) sp = true)
    (Hrest : isSpace (fst (peekRune rest)) = false) :
  nextToken (mkLexer inp ps st w) =
  nextToken (mkLexer inp (ps + String.length sp) st' w').
Proof.
  pose proof (length_drop ps inp) as Hlen. rewrite Hd, length_app in Hlen.
  assert (Hd' : drop (ps + String.length sp) inp = "" ++ rest).
  { rewrite drop_add, Hd. apply drop_length_app. }
  unfold nextToken. unfold bind at 1.
  rewrite (skipSpaces_run sp rest inp ps st w Hd Hle Hsp Hrest).
  symmetry. unfold bind at 1.
  rewrite (skipSpaces_run "" rest inp _ st' w' Hd' ltac:(lia) eq_refl Hrest).
  cbn [String.length]. now rewrite Nat.add_0_r.
Qed.


(** *** The lexer always returns a token *)
Lemma peekRune_eof (rest : string) :
  fst (peekRune rest) <> eof -> 1 <= snd (peekRune rest).
Proof.
  intros H. apply peekRune_width. intros ->. now apply H.
Qed.

Lemma lexer_val_total (l : lexer) :
  start l <= pos l -> pos l <= String.length (input l) ->
  exists v, lexer_val l = Ret (v, l).
Proof.
  intros H1 H2. destruct l as [inp ps st w]. cbn [input pos start] in *.
  eexists. now apply lexer_val_ok.
Qed.

Lemma lexer_emit_total (t : tokenType) (l : lexer) :
  start l <= pos l -> pos l <= String.length (input l) ->
  exists v, lexer_emit t l =
            Ret (mktok t v, mkLexer (input l) (pos l) (pos l) (width l)).
Proof.
  intros H1 H2. destruct (lexer_val_total l H1 H2) as [v Hv].
  exists v. unfold lexer_emit, bind. now rewrite Hv.
Qed.

(** The tail of [lexNumber] and the whole of [lexIdentifier]: a scanning
    loop, then an error token or a token that ends before the rune that
    stopped the loop. *)
Lemma scan_then_emit_total (p : Z -> bool) (Hp : p eof = false)
    (k : Z -> M lexer token) (mk : string -> token) (msg : string -> token)
    (l : lexer) :
  start l <= pos l -> pos l <= String.length (input l) ->
  (forall ch l', k ch l' =
     (if negb (isBoundary ch) then v <- lexer_val ;; ret (msg v)
      else lexer_unnext ;;; v <- lexer_val ;;
           fun l0 => Ret (mk v, mkLexer (input l0) (pos l0) (pos l0) (width l0))) l') ->
  exists t l',
    (ch <- scanWhile p ;; k ch) l = Ret (t, l')
    /\ input l' = input l /\ pos l <= pos l'
    /\ pos l' <= String.length (input l)
    /\ (exists v, t = msg v \/ t = mk v).
Proof.
  intros Hst Hle Hk.
  destruct (scanWhile_total p Hp l Hle)
    as (ch & l1 & Hscan & _ & Hin & Hs1 & Hpos & Hlen & _ & _).
  unfold bind at 1. rewrite Hscan, Hk.
  destruct (negb (isBoundary ch)).
  - destruct (lexer_val_total l1) as [v Hv]; [lia|rewrite Hin; lia|].
    unfold bind. rewrite Hv. exists (msg v), l1.
    repeat split; try assumption; try lia. exists v. now left.
  - unfold bind at 1, lexer_unnext at 1.
    destruct (lexer_val_total
                (mkLexer (input l1) (pos l1 - width l1) (start l1) (width l1)))
      as [v Hv]; cbn [input pos start width]; [lia|rewrite Hin; lia|].
    unfold bind. rewrite Hv. cbn [input pos start width].
    eexists _, _. split; [reflexivity|]. cbn [input pos].
    repeat split; try assumption; try lia. exists v. now right.
Qed.

Lemma lexer_val_twice (A : Type) (F : string -> string -> M lexer A) (l : lexer) :
  (v <- lexer_val ;; v' <- lexer_val ;; F v v') l =
  (v <- lexer_val ;; F v v) l.
Proof.
  unfold bind, lexer_val.
  destruct ((start l <=? pos l)%nat && (pos l <=? String.length (input l))%nat)
    eqn:E; [|reflexivity].
  now rewrite E.
Qed.

Lemma lexIdentifier_total (l : lexer) :
  start l <= pos l -> pos l <= String.length (input l) ->
  exists t l',
    lexIdentifier l = Ret (t, l')
    /\ input l' = input l /\ pos l <= pos l'
    /\ pos l' <= String.length (input l).
Proof.
  intros Hst Hle.
  destruct (scan_then_emit_total (fun ch => isDigit ch || isLetter ch) eq_refl
              (fun ch =>
                 if negb (isBoundary ch) then
                   v <- lexer_val ;;
                   ret (errorToken ("bad identifier syntax: '" ++ v ++ "'"))
                 else
                   lexer_unnext ;;;
                   v <- lexer_val ;;
                   lexer_emit (if (v =? "true") || (v =? "false")
                               then tokenBool else tokenIdentifier))
              (fun v => mktok (if (v =? "true") || (v =? "false")
                               then tokenBool else tokenIdentifier) v)
              (fun v => errorToken ("bad identifier syntax: '" ++ v ++ "'"))
              l Hst Hle)
    as (t & l' & H & Hin & Hpos & Hlen & _).
  - intros ch l'. destruct (negb (isBoundary ch)); [reflexivity|].
    unfold bind at 1 3. unfold lexer_unnext.
    unfold lexer_emit. apply lexer_val_twice.
  - exists t, l'. auto.
Qed.

Lemma lexNumber_total (l : lexer) :
  start l <= pos l -> pos l <= String.length (input l) ->
  exists t l',
    lexNumber l = Ret (t, l')
    /\ input l' = input l
    /\ pos l' <= String.length (input l)
    /\ (typ t = tokenError \/ pos l < pos l').
Proof.
  intros Hst Hle. destruct l as [inp ps st w]. cbn [input pos start] in *.
  unfold lexNumber. unfold bind at 1. rewrite lexer_next_peek by assumption.
  pose proof (peekRune_width (drop ps inp)) as [Hw1 _].
  rewrite length_drop in Hw1.
  set (c1 := fst (peekRune (drop ps inp))).
  set (w1 := snd (peekRune (drop ps inp))) in *.
  assert (Hsecond :
    exists c2 q wq,
      (if (c1 =? 45)%Z then lexer_next else ret c1) (mkLexer inp (ps + w1) st w1)
      = Ret (c2, mkLexer inp q st wq)
      /\ ps + w1 <= q /\ q <= String.length inp /\ wq <= q - ps
      /\ (isDigit c2 = true -> ps < q)).
  { destruct (c1 =? 45)%Z eqn:E45.
    - rewrite lexer_next_peek by lia.
      pose proof (peekRune_width (drop (ps + w1) inp)) as [Hw2 Hw2'].
      rewrite length_drop in Hw2.
      eexists _, _, _. split; [reflexivity|]. repeat split; try lia.
      intros Hd.
      assert (1 <= w1).
      { apply peekRune_eof. fold c1. unfold eof. lia. }
      lia.
    - exists c1, (ps + w1), w1. split; [reflexivity|]. repeat split; try lia.
      intros Hd.
      assert (1 <= w1).
      { apply peekRune_eof. fold c1. intros Heof. rewrite Heof in Hd.
        discriminate Hd. }
      lia. }
  destruct Hsecond as (c2 & q & wq & Hsec & Hq1 & Hq2 & Hwq & Hdig).
  unfold bind at 1. rewrite Hsec.
  destruct (isDigit c2) eqn:Hd; cbn [negb].
  - specialize (Hdig eq_refl).
    destruct (scan_then_emit_total isDigit eq_refl
                (fun ch =>
                   if negb (isBoundary ch) then
                     v <- lexer_val ;;
                     ret (errorToken ("bad number syntax: '" ++ v ++ "'"))
                   else lexer_unnext ;;; lexer_emit tokenNumber)
                (fun v => mktok tokenNumber v)
                (fun v => errorToken ("bad number syntax: '" ++ v ++ "'"))
                (mkLexer inp q st wq))
      as (t & l' & H & Hin & Hpos & Hlen & _); cbn [input pos start] in *;
      try lia.
    + intros ch l'. reflexivity.
    + exists t, l'. repeat split; try assumption. right. lia.
  - assert (Hun : exists q',
               (if isBoundary c2 then lexer_unnext else ret tt)
                 (mkLexer inp q st wq) = Ret (tt, mkLexer inp q' st wq)
               /\ st <= q' /\ q' <= String.length inp).
    { destruct (isBoundary c2).
      - eexists. split; [reflexivity|]. cbn [pos width]. lia.
      - exists q. split; [reflexivity|]. lia. }
    destruct Hun as (q' & Hun & Hq' & Hq'').
    unfold bind at 1. rewrite Hun.
    destruct (lexer_val_total (mkLexer inp q' st wq)) as [v Hv];
      cbn [input pos start]; try lia.
    unfold bind. rewrite Hv.
    eexists _, _. split; [reflexivity|]. cbn [input pos typ errorToken].
    repeat split; try lia. now left.
Qed.

(** [nextToken] returns from every position of every input: it never
    panics on a slice, its loops end, the position stays within the input,
    and every token other than an error or the end marker moves the
    position forward. *)
Lemma nextToken_total (l : lexer) :
  pos l <= String.length (input l) ->
  exists t l',
    nextToken l = Ret (t, l')
    /\ input l' = input l
    /\ pos l' <= String.length (input l)
    /\ (typ t = tokenError \/ typ t = tokenEOF \/ pos l < pos l').
Proof.
  intros Hle.
  destruct (scanWhile_total isSpace eq_refl l Hle)
    as (ch & l1 & Hscan & _ & Hin & _ & Hpos & Hlen & _ & _).
  unfold nextToken. unfold bind at 1. unfold skipSpaces.
  unfold bind at 1. rewrite Hscan.
  unfold bind at 1, lexer_unnext at 1. cbn [input pos start width].
  rewrite Hin.
  set (inp := input l) in *.
  set (p3 := pos l1 - width l1).
  assert (Hp3 : pos l <= p3 /\ p3 <= String.length inp) by (unfold p3; lia).
  unfold bind at 1. rewrite lexer_next_peek by lia.
  pose proof (peekRune_width (drop p3 inp)) as [Hw _].
  rewrite length_drop in Hw.
  pose proof (peekRune_eof (drop p3 inp)) as Hne.
  set (c := fst (peekRune (drop p3 inp))) in *.
  set (w3 := snd (peekRune (drop p3 inp))) in *.
  destruct ((c =? 45)%Z || isDigit c) eqn:Hnum.
  - unfold bind at 1, lexer_unnext at 1. cbn [input pos start width].
    replace (p3 + w3 - w3) with p3 by lia.
    destruct (lexNumber_total (mkLexer inp p3 p3 w3))
      as (t & l' & H & Hin' & Hlen' & Hprog); cbn [input pos start] in *;
      try lia.
    exists t, l'. repeat split; try assumption.
    destruct Hprog as [He|Hlt]; [now left|right; right; lia].
  - destruct (isLetter c) eqn:Hlet.
    + assert (1 <= w3) by (apply Hne; intros E; rewrite E in Hlet; discriminate).
      destruct (lexIdentifier_total (mkLexer inp (p3 + w3) p3 w3))
        as (t & l' & H' & Hin' & Hpos' & Hlen'); cbn [input pos start] in *;
        try lia.
      exists t, l'. repeat split; try assumption. right; right. lia.
    + destruct (c =? 40)%Z eqn:H40.
      * assert (1 <= w3) by (apply Hne; unfold eof; lia).
        destruct (lexer_emit_total tokenLeftParen (mkLexer inp (p3 + w3) p3 w3))
          as [v Hv]; cbn [input pos start] in *; try lia.
        rewrite Hv. eexists _, _. split; [reflexivity|]. cbn [input pos typ].
        repeat split; try lia.
      * destruct (c =? 41)%Z eqn:H41.
        -- assert (1 <= w3) by (apply Hne; unfold eof; lia).
           destruct (lexer_emit_total tokenRightParen
                       (mkLexer inp (p3 + w3) p3 w3))
             as [v Hv]; cbn [input pos start] in *; try lia.
           rewrite Hv. eexists _, _. split; [reflexivity|]. cbn [input pos typ].
           repeat split; try lia.
        -- destruct (c =? eof)%Z eqn:Heof.
           ++ destruct (lexer_emit_total tokenEOF (mkLexer inp (p3 + w3) p3 w3))
                as [v Hv]; cbn [input pos start] in *; try lia.
              rewrite Hv. eexists _, _. split; [reflexivity|].
              cbn [input pos typ]. repeat split; try lia. right; now left.
           ++ eexists _, _. split; [reflexivity|]. cbn [input pos typ errorToken].
              repeat split; try lia; try (now left).
Qed.

(** *** Runes of more than one byte *)

Lemma lor_ge_l (x y : Z) : (0 <= x)%Z -> (0 <= y)%Z -> (x <= Z.lor x y)%Z.
Proof.
  intros Hx Hy. pose proof (Z.sub_lor_l_same_r y x) as H.
  assert (0 <= Z.land y (Z.lnot x))%Z by (apply Z.land_nonneg; now left).
  rewrite Z.lor_comm in H. lia.
Qed.

Lemma lor_ge_r (x y : Z) : (0 <= x)%Z -> (0 <= y)%Z -> (y <= Z.lor x y)%Z.
Proof. intros Hx Hy. rewrite Z.lor_comm. now apply lor_ge_l. Qed.

Lemma land_low (a : Z) (k : Z) :
  (0 <= k)%Z -> Z.land a (Z.ones k) = (a mod 2 ^ k)%Z.
Proof. intros. now apply Z.land_ones. Qed.

(** A rune that starts with a byte of 128 or more is 128 or more: only a
    one-byte rune is below 128. *)
Lemma DecodeRuneInString_multibyte (c0 : ascii) (t : string) :
  (128 <= byteZ c0)%Z -> (128 <= fst (DecodeRuneInString (String c0 t)))%Z.
Proof.
  intros H0. pose proof (byteZ_range c0) as R0.
  unfold DecodeRuneInString.
  replace (byteZ c0 <? 128)%Z with false by lia.
  destruct ((byteZ c0 <? 194) || (244 <? byteZ c0))%Z eqn:Einv;
    [cbn; unfold RuneError; lia|].
  apply orb_false_iff in Einv as [E194 E244].
  apply Z.ltb_ge in E194, E244.
  match goal with |- context [if ?b then (RuneError, 1) else _] =>
    destruct b; [cbn; unfold RuneError; lia|] end.
  destruct t as [|c1 t1]; [cbn; unfold RuneError; lia|].
  pose proof (byteZ_range c1) as R1.
  match goal with |- context [if ?b then (RuneError, 1) else _] =>
    destruct b eqn:E1; [cbn; unfold RuneError; lia|] end.
  apply orb_false_iff in E1 as [E1lo E1hi]. apply Z.ltb_ge in E1lo, E1hi.
  assert (N31 : forall a, Z.land a 31 = (a mod 32)%Z)
    by (intros a; apply (land_low a 5); lia).
  assert (N15 : forall a, Z.land a 15 = (a mod 16)%Z)
    by (intros a; apply (land_low a 4); lia).
  assert (N7 : forall a, Z.land a 7 = (a mod 8)%Z)
    by (intros a; apply (land_low a 3); lia).
  assert (N63 : forall a, Z.land a 63 = (a mod 64)%Z)
    by (intros a; apply (land_low a 6); lia).
  assert (M63 : forall a, (0 <= a mod 64 < 64)%Z)
    by (intros a; apply Z.mod_pos_bound; lia).
  destruct (byteZ c0 <? 224)%Z eqn:E224.
  - (* two bytes *)
    apply Z.ltb_lt in E224. cbn [Nat.leb fst].
    rewrite N31, N63, Z.shiftl_mul_pow2 by lia.
    pose proof (M63 (byteZ c1)).
    assert (2 <= byteZ c0 mod 32)%Z
      by (Z.to_euclidean_division_equations; lia).
    etransitivity; [|apply lor_ge_l]; lia.
  - apply Z.ltb_ge in E224.
    destruct (byteZ c0 <? 240)%Z eqn:E240.
    + (* three bytes *)
      apply Z.ltb_lt in E240. cbn [Nat.leb].
      destruct t1 as [|c2 t2]; [cbn; unfold RuneError; lia|].
      match goal with |- context [if ?b then (RuneError, 1) else _] =>
        destruct b; [cbn; unfold RuneError; lia|] end.
      cbn [fst]. rewrite N15, !N63, !Z.shiftl_mul_pow2 by lia.
      pose proof (M63 (byteZ c1)). pose proof (M63 (byteZ c2)).
      pose proof (Z.mod_pos_bound (byteZ c0) 16 ltac:(lia)).
      assert (Hcase : (1 <= byteZ c0 mod 16 \/ 32 <= byteZ c1 mod 64)%Z).
      { destruct (Z.eq_dec (byteZ c0) 224) as [E|E].
        - right. rewrite E in E1lo, E1hi. cbn in E1lo, E1hi.
          Z.to_euclidean_division_equations; lia.
        - left. Z.to_euclidean_division_equations; lia. }
      etransitivity; [|apply lor_ge_l; [apply Z.lor_nonneg|]; lia].
      destruct Hcase.
      * etransitivity; [|apply lor_ge_l]; lia.
      * etransitivity; [|apply lor_ge_r]; lia.
    + (* four bytes *)
      apply Z.ltb_ge in E240. cbn [Nat.leb].
      destruct t1 as [|c2 t2]; [cbn; unfold RuneError; lia|].
      match goal with |- context [if ?b then (RuneError, 1) else _] =>
        destruct b; [cbn; unfold RuneError; lia|] end.
      destruct t2 as [|c3 t3]; [cbn; unfold RuneError; lia|].
      match goal with |- context [if ?b then (RuneError, 1) else _] =>
        destruct b; [cbn; unfold RuneError; lia|] end.
      cbn [fst]. rewrite N7, !N63, !Z.shiftl_mul_pow2 by lia.
      pose proof (M63 (byteZ c1)). pose proof (M63 (byteZ c2)).
      pose proof (M63 (byteZ c3)).
      pose proof (Z.mod_pos_bound (byteZ c0) 8 ltac:(lia)).
      assert (Hcase : (1 <= byteZ c0 mod 8 \/ 16 <= byteZ c1 mod 64)%Z).
      { destruct (Z.eq_dec (byteZ c0) 240) as [E|E].
        - right. rewrite E in E1lo, E1hi. cbn in E1lo, E1hi.
          Z.to_euclidean_division_equations; lia.
        - left. Z.to_euclidean_division_equations; lia. }
      etransitivity;
        [|apply lor_ge_l;
          [apply Z.lor_nonneg; split; [apply Z.lor_nonneg; split|]|]; lia].
      etransitivity; [|apply lor_ge_l; [apply Z.lor_nonneg|]; lia].
      destruct Hcase.
      * etransitivity; [|apply lor_ge_l]; lia.
      * etransitivity; [|apply lor_ge_r]; lia.
Qed.

Lemma peekRune_small (c : ascii) (t : string) :
  (fst (peekRune (String c t)) < 128)%Z ->
  peekRune (String c t) = (byteZ c, 1).
Proof.
  intros H. apply peekRune_ascii. apply Z.ltb_lt.
  destruct (Z.lt_ge_cases (byteZ c) 128) as [L|G]; [exact L|].
  pose proof (DecodeRuneInString_multibyte c t G) as M.
  unfold peekRune in H. lia.
Qed.

(** Every string splits into its longest prefix of one-byte runes that
    satisfy [q] and the rest. *)
Lemma split_run (q : Z -> bool)
    (Hq : forall r, q r = true -> (0 <= r < 128)%Z) (s : string) :
  exists run rest,
    s = run ++ rest
    /\ allBytes (fun c => q (byteZ c)) run = true
    /\ q (fst (peekRune rest)) = false.
Proof.
  induction s as [|c t IH].
  - exists "", "". repeat split.
    destruct (q (fst (peekRune ""))) eqn:E; [|reflexivity].
    apply Hq in E. change (fst (peekRune "")) with (-1)%Z in E. lia.
  - destruct (q (fst (peekRune (String c t)))) eqn:E.
    + pose proof (Hq _ E) as R.
      rewrite (peekRune_small c t) in E by lia. cbn [fst] in E.
      destruct IH as (run & rest & -> & Hall & Hstop).
      exists (String c run), rest. cbn [append allBytes].
      now rewrite E, Hall.
    + exists "", (String c t). repeat split. exact E.
Qed.

Lemma lexer_emit_typ (ty : tokenType) (l l' : lexer) (t : token) :
  lexer_emit ty l = Ret (t, l') -> typ t = ty.
Proof.
  unfold lexer_emit, bind, lexer_val. intros H.
  destruct ((start l <=? pos l)%nat && (pos l <=? String.length (input l))%nat);
    [|discriminate H].
  injection H as <- _. reflexivity.
Qed.

Lemma lexer_val_error_typ (f : string -> string) (l l' : lexer) (t : token) :
  (v <- lexer_val ;; ret (errorToken (f v))) l = Ret (t, l') ->
  typ t = tokenError.
Proof.
  unfold bind, lexer_val, ret. intros H.
  destruct ((start l <=? pos l)%nat && (pos l <=? String.length (input l))%nat);
    [|discriminate H].
  injection H as <- _. reflexivity.
Qed.

Lemma lexNumber_typ (l l' : lexer) (t : token) :
  lexNumber l = Ret (t, l') -> typ t = tokenError \/ typ t = tokenNumber.
Proof.
  unfold lexNumber. unfold bind at 1. intros H.
  destruct (lexer_next l) as [[c l1]| |]; try discriminate H.
  unfold bind at 1 in H.
  destruct ((if (c =? 45)%Z then lexer_next else ret c) l1) as [[c2 l2]| |];
    try discriminate H.
  destruct (negb (isDigit c2)).
  - unfold bind at 1 in H.
    destruct ((if isBoundary c2 then lexer_unnext else ret tt) l2)
      as [[u l3]| |]; try discriminate H.
    left. exact (lexer_val_error_typ _ _ _ _ H).
  - unfold bind at 1 in H.
    destruct (scanWhile isDigit l2) as [[c3 l3]| |]; try discriminate H.
    destruct (negb (isBoundary c3)).
    + left. exact (lexer_val_error_typ _ _ _ _ H).
    + unfold bind at 1, lexer_unnext at 1 in H.
      right. exact (lexer_emit_typ _ _ _ _ H).
Qed.

(** The text of an identifier token is a word, and not [true] or
    [false]. *)
Lemma nextToken_tokenOk (l l' : lexer) (t : token) :
  pos l <= String.length (input l) ->
  nextToken l = Ret (t, l') -> tokenOk t = true.
Proof.
  intros Hle H. destruct l as [inp ps st w]. cbn [input pos] in Hle.
  assert (HqS : forall r, isSpace r = true -> (0 <= r < 128)%Z).
  { intros r Hr. unfold isSpace in Hr.
    repeat (apply orb_true_iff in Hr as [Hr|Hr]); lia. }
  assert (HqW : forall r, isWordRune r = true -> (0 <= r < 128)%Z).
  { intros r Hr. unfold isWordRune, isDigit, isLetter in Hr.
    repeat (apply orb_true_iff in Hr as [Hr|Hr]);
      apply andb_true_iff in Hr; lia. }
  destruct (split_run isSpace HqS (drop ps inp)) as (sp & rest1 & Hd & Hsp & Hns).
  rewrite (nextToken_skip_run inp ps st w st w sp rest1 Hd Hle Hsp Hns) in H.
  pose proof (length_drop ps inp) as Hlen. rewrite Hd, length_app in Hlen.
  assert (Hd1 : drop (ps + String.length sp) inp = rest1).
  { rewrite drop_add, Hd. apply drop_length_app. }
  destruct (isLetter (fst (peekRune rest1))) eqn:Hlet.
  - destruct rest1 as [|c0 t1]; [discriminate Hlet|].
    assert (Hsmall : (fst (peekRune (String c0 t1)) < 128)%Z).
    { apply isLetter_ascii in Hlet. lia. }
    rewrite (peekRune_small c0 t1 Hsmall) in Hlet. cbn [fst] in Hlet.
    destruct (split_run isWordRune HqW t1) as (ws & rest & -> & Hws & Hstop).
    rewrite (nextToken_identifier inp _ st w c0 ws rest Hd1 Hlet Hws Hstop) in H.
    cbv zeta in H.
    remember ((String c0 ws =? "true") || (String c0 ws =? "false")) as kw
      eqn:Hkw.
    destruct (isBoundary (fst (peekRune rest))); injection H as <- _;
      [|reflexivity].
    unfold tokenOk. cbn [typ val]. destruct kw; [reflexivity|].
    rewrite <- Hkw. cbn [isWord negb]. unfold isLetterByte. rewrite Hlet.
    unfold isWordByte. unfold isWordRune in Hws. now rewrite Hws.
  - (* no letter: the token is not an identifier *)
    assert (Hty : typ t <> tokenIdentifier).
    { unfold nextToken in H. unfold bind at 1 in H.
      rewrite (skipSpaces_run "" rest1 inp _ st w Hd1 ltac:(lia) eq_refl Hns) in H.
      cbn [String.length] in H. rewrite Nat.add_0_r in H.
      unfold bind at 1 in H. rewrite lexer_next_peek in H by lia.
      rewrite Hd1, Hlet in H.
      destruct ((fst (peekRune rest1) =? 45)%Z || isDigit (fst (peekRune rest1))).
      - unfold bind at 1, lexer_unnext at 1 in H.
        destruct (lexNumber_typ _ _ _ H) as [E|E]; rewrite E; discriminate.
      - destruct (fst (peekRune rest1) =? 40)%Z;
          [rewrite (lexer_emit_typ _ _ _ _ H); discriminate|].
        destruct (fst (peekRune rest1) =? 41)%Z;
          [rewrite (lexer_emit_typ _ _ _ _ H); discriminate|].
        destruct (fst (peekRune rest1) =? eof)%Z;
          [rewrite (lexer_emit_typ _ _ _ _ H); discriminate|].
        injection H as <- _. discriminate. }
    unfold tokenOk. destruct (typ t); try reflexivity. congruence.
Qed.

(** C6, the claim as stated fails on "truex": the five letters are one
    identifier, so the lexer yields an identifier token and the end marker,
    and no error token. *)
Lemma truex_is_an_identifier :
  collectTokens "truex" = Ret [mktok tokenIdentifier "truex"; mktok tokenEOF ""]
  /\ ~ (exists msg, collectTokens "truex" = Ret [errorToken msg]).
Proof.
  assert (H : collectTokens "truex" =
              Ret [mktok tokenIdentifier "truex"; mktok tokenEOF ""])
    by (vm_compute; reflexivity).
  split; [exact H|]. intros [msg Hm]. rewrite H in Hm. discriminate Hm.
Qed.

(** C6 as amended.  A number (an optional minus sign and digits) or a word (a
    letter, then letters and digits) that is followed by a rune that neither
    continues it nor is a boundary gives one error token and nothing else;
    the message quotes the input from the start of the token through that
    first offending rune (and no further: "3xyz" gives the message for '3x').
    A word that runs to the end of the input is one valid token, so "truex"
    is the identifier [truex] followed by the end marker, while "3x" and
    "true(" are one error token each. *)
Theorem boundary_violations :
  (forall sign d0 ds rest,
     sign = "" \/ sign = "-" ->
     allBytes isDigitByte (String d0 ds) = true ->
     isDigit (fst (peekRune rest)) = false ->
     isBoundary (fst (peekRune rest)) = false ->
     collectTokens (sign ++ String d0 ds ++ rest) =
     Ret [errorToken ("bad number syntax: '"
                      ++ (sign ++ String d0 ds ++ take (snd (peekRune rest)) rest)
                      ++ "'")])
  /\ (forall c0 ws rest,
        isLetterByte c0 = true -> allBytes isWordByte ws = true ->
        isWordRune (fst (peekRune rest)) = false ->
        isBoundary (fst (peekRune rest)) = false ->
        collectTokens (String c0 ws ++ rest) =
        Ret [errorToken ("bad identifier syntax: '"
                         ++ (String c0 ws ++ take (snd (peekRune rest)) rest)
                         ++ "'")])
  /\ (forall c0 ws,
        isLetterByte c0 = true -> allBytes isWordByte ws = true ->
        collectTokens (String c0 ws) =
        Ret [mktok (if (String c0 ws =? "true") || (String c0 ws =? "false")
                    then tokenBool else tokenIdentifier) (String c0 ws);
             mktok tokenEOF ""])
  /\ collectTokens "3x" = Ret [errorToken "bad number syntax: '3x'"]
  /\ collectTokens "3xyz" = Ret [errorToken "bad number syntax: '3x'"]
  /\ collectTokens "truex" =
     Ret [mktok tokenIdentifier "truex"; mktok tokenEOF ""]
  /\ collectTokens "true(" = Ret [errorToken "bad identifier syntax: 'true('"].
Proof.
  split; [|split; [|split; [|repeat split; vm_compute; reflexivity]]].
  - intros sign d0 ds rest Hsign Hds Hstop Hnb.
    unfold collectTokens, newLexer. cbn [collectTokensFrom].
    rewrite (nextToken_number _ 0 0 0 sign d0 ds rest eq_refl Hsign Hds Hstop).
    cbv zeta. rewrite Hnb. reflexivity.
  - intros c0 ws rest Hc0 Hws Hstop Hnb.
    unfold collectTokens, newLexer. cbn [collectTokensFrom].
    rewrite (nextToken_identifier _ 0 0 0 c0 ws rest eq_refl Hc0 Hws Hstop).
    cbv zeta. rewrite Hnb. reflexivity.
  - intros c0 ws Hc0 Hws.
    unfold collectTokens, newLexer. cbn [String.length collectTokensFrom].
    rewrite (nextToken_identifier (String c0 ws) 0 0 0 c0 ws ""
               ltac:(now rewrite append_nil_r) Hc0 Hws eq_refl).
    cbv zeta. cbn [peekRune fst snd]. change (isBoundary eof) with true.
    cbv iota. cbn [typ].
    assert (Hnext : nextToken (mkLexer (String c0 ws) (0 + S (String.length ws))
                                 (0 + S (String.length ws)) 0) =
                    Ret (mktok tokenEOF "",
                         mkLexer (String c0 ws) (String.length (String c0 ws))
                                 (String.length (String c0 ws)) 0)).
    { apply nextToken_eof with (sp := ""); [|cbn [String.length]; lia|reflexivity].
      change (0 + S (String.length ws)) with (String.length (String c0 ws)).
      pose proof (drop_length_app (String c0 ws) "") as E.
      now rewrite append_nil_r in E. }
    destruct ((String c0 ws =? "true") || (String c0 ws =? "false"));
      rewrite Hnext; reflexivity.
Qed.

(** *** Further properties of the lexer *)

(** From any position within the input [nextToken] returns a token: no slice
    is out of range and the loops end.  The position stays within the input,
    and a token other than an error or the end marker consumes at least one
    byte. *)
Theorem nextToken_returns (l : lexer)
    (H : pos l <= String.length (input l)) :
  exists t l',
    nextToken l = Ret (t, l')
    /\ input l' = input l
    /\ pos l' <= String.length (input l)
    /\ (typ t = tokenError \/ typ t = tokenEOF \/ pos l < pos l').
Proof. exact (nextToken_total l H). Qed.

Lemma collectTokensFrom_total (fuel : nat) :
  forall l,
    pos l <= String.length (input l) ->
    String.length (input l) - pos l < fuel ->
    exists ts t,
      collectTokensFrom fuel l = Ret (ts ++ [t])%list
      /\ (typ t = tokenError \/ typ t = tokenEOF)
      /\ Forall (fun t' => typ t' <> tokenError /\ typ t' <> tokenEOF) ts.
Proof.
  induction fuel as [|fuel IH]; intros l Hle Hfuel; [lia|].
  destruct (nextToken_total l Hle) as (t & l' & H & Hin & Hlen & Hprog).
  cbn [collectTokensFrom]. rewrite H.
  destruct (typ t) eqn:Ht;
    try (exists [], t; split; [reflexivity|]; split; [auto|constructor]).
  all: destruct Hprog as [E|[E|Hlt]]; try discriminate E.
  all: destruct (IH l') as (ts & t' & Hrec & Hlast & Hall);
    [rewrite Hin; lia|rewrite Hin; lia|].
  all: rewrite Hrec; exists (t :: ts), t'; split; [reflexivity|];
    split; [assumption|]; constructor; [|assumption];
    rewrite Ht; split; discriminate.
Qed.

(** Lexing any input ends: the token list is a run of valid tokens closed by
    exactly one error token or end marker. *)
Theorem collectTokens_total (s : string) :
  exists ts t,
    collectTokens s = Ret (ts ++ [t])%list
    /\ (typ t = tokenError \/ typ t = tokenEOF)
    /\ Forall (fun t' => typ t' <> tokenError /\ typ t' <> tokenEOF) ts.
Proof.
  unfold collectTokens. apply collectTokensFrom_total;
    cbn [newLexer input pos]; lia.
Qed.

(** At the end of the input, or before spaces that run to the end, the lexer
    returns the end marker, and every further call returns it again. *)
Theorem nextToken_end_marker_repeats (inp : string) (ps st w : nat)
    (Hle : ps <= String.length inp)
    (Hsp : allBytes (fun c => isSpace (byteZ c)) (drop ps inp) = true) :
  exists lend,
    nextToken (mkLexer inp ps st w) = Ret (mktok tokenEOF "", lend)
    /\ nextToken lend = Ret (mktok tokenEOF "", lend).
Proof.
  exists (mkLexer inp (String.length inp) (String.length inp) 0). split.
  - now apply nextToken_eof with (sp := drop ps inp).
  - apply nextToken_eof with (sp := ""); [|lia|reflexivity].
    pose proof (drop_length_app inp "") as E. now rewrite append_nil_r in E.
Qed.

(** Spaces, tabs, carriage returns and line feeds before a token are
    skipped: the lexer returns what it returns from the first byte after
    them, whatever its state was. *)
Theorem nextToken_skips_spaces (inp : string) (ps st w st' w' : nat)
    (sp rest : string)
    (Hd : drop ps inp = sp ++ rest)
    (Hle : ps <= String.length inp)
    (Hsp : allBytes (fun c => isSpace (byteZ c)) sp = true)
    (Hrest : isSpace (fst (peekRune rest)) = false) :
  nextToken (mkLexer inp ps st w) =
  nextToken (mkLexer inp (ps + String.length sp) st' w').
Proof. now apply nextToken_skip_run with (rest := rest). Qed.

(** A decimal literal (an optional minus sign and digits) that is followed
    by a boundary is one number token whose text is the literal; the lexer
    stops right after it. *)
Theorem number_token (inp : string) (ps st w : nat) (sign : string)
    (d0 : ascii) (ds rest : string)
    (Hd : drop ps inp = sign ++ String d0 ds ++ rest)
    (Hsign : sign = "" \/ sign = "-")
    (Hds : allBytes isDigitByte (String d0 ds) = true)
    (Hb : isBoundary (fst (peekRune rest)) = true) :
  nextToken (mkLexer inp ps st w) =
  Ret (mktok tokenNumber (sign ++ String d0 ds),
       mkLexer inp (ps + String.length (sign ++ String d0 ds))
               (ps + String.length (sign ++ String d0 ds))
               (snd (peekRune rest))).
Proof.
  assert (Hstop : isDigit (fst (peekRune rest)) = false).
  { unfold isBoundary, isSpace, eof in Hb. unfold isDigit.
    repeat (apply orb_true_iff in Hb as [Hb|Hb]); lia. }
  rewrite (nextToken_number inp ps st w sign d0 ds rest Hd Hsign Hds Hstop).
  cbv zeta. rewrite Hb, length_app. reflexivity.
Qed.

(** A word (a letter, then letters and digits) that is followed by a
    boundary is one token whose text is the word: a boolean token when the
    word is [true] or [false], an identifier token otherwise ([lam] and
    [app] included). *)
Theorem word_token (inp : string) (ps st w : nat)
    (c0 : ascii) (ws rest : string)
    (Hd : drop ps inp = String c0 ws ++ rest)
    (Hc0 : isLetterByte c0 = true)
    (Hws : allBytes isWordByte ws = true)
    (Hb : isBoundary (fst (peekRune rest)) = true) :
  exists t l',
    nextToken (mkLexer inp ps st w) = Ret (t, l')
    /\ val t = String c0 ws
    /\ pos l' = ps + String.length (String c0 ws)
    /\ (typ t = tokenBool <-> String c0 ws = "true" \/ String c0 ws = "false")
    /\ (typ t = tokenIdentifier <->
        String c0 ws <> "true" /\ String c0 ws <> "false").
Proof.
  assert (Hstop : isWordRune (fst (peekRune rest)) = false).
  { unfold isBoundary, isSpace, eof in Hb. unfold isWordRune, isDigit, isLetter.
    repeat (apply orb_true_iff in Hb as [Hb|Hb]); lia. }
  rewrite (nextToken_identifier inp ps st w c0 ws rest Hd Hc0 Hws Hstop).
  cbv zeta. rewrite Hb. eexists _, _. split; [reflexivity|].
  cbn [val typ pos String.length]. split; [reflexivity|]. split; [reflexivity|].
  destruct (String c0 ws =? "true") eqn:Et;
    [apply String.eqb_eq in Et|apply String.eqb_neq in Et];
    (destruct (String c0 ws =? "false") eqn:Ef;
     [apply String.eqb_eq in Ef|apply String.eqb_neq in Ef]);
    cbn [orb]; split; split; intros H; try discriminate H; auto;
    try (destruct H as [H1 H2]; congruence);
    try (destruct H as [H|H]; congruence).
Qed.

Lemma byteOfZ_byteZ (c : ascii) : byteOfZ (byteZ c) = c.
Proof.
  unfold byteOfZ, byteZ. rewrite N2Z.id. apply ascii_N_embedding.
Qed.

(** A rune that is not a space, a minus sign, a digit, a letter, a
    parenthesis or the end of the input gives the error token
    "illegal character: '<rune>'"; for a one-byte rune the message shows the
    byte itself. *)
Theorem illegal_character (inp : string) (ps st w : nat)
    (Hle : ps <= String.length inp)
    (Hnsp : isSpace (fst (peekRune (drop ps inp))) = false)
    (Hnum : (fst (peekRune (drop ps inp)) =? 45)%Z
            || isDigit (fst (peekRune (drop ps inp))) = false)
    (Hlet : isLetter (fst (peekRune (drop ps inp))) = false)
    (Hpar : (fst (peekRune (drop ps inp)) =? 40)%Z
            || (fst (peekRune (drop ps inp)) =? 41)%Z = false)
    (Heof : (fst (peekRune (drop ps inp)) =? eof)%Z = false) :
  (exists l',
     nextToken (mkLexer inp ps st w) =
     Ret (errorToken ("illegal character: '"
                      ++ runeString (fst (peekRune (drop ps inp))) ++ "'"), l'))
  /\ (forall c t, drop ps inp = String c t -> (byteZ c < 128)%Z ->
        runeString (fst (peekRune (drop ps inp))) = String c "").
Proof.
  split.
  - unfold nextToken. unfold bind at 1.
    rewrite (skipSpaces_run "" (drop ps inp) inp ps st w eq_refl Hle eq_refl Hnsp).
    cbn [String.length]. rewrite Nat.add_0_r.
    unfold bind at 1. rewrite lexer_next_peek by assumption.
    rewrite Hnum, Hlet. apply orb_false_iff in Hpar as [H40 H41].
    rewrite H40, H41, Heof. eexists. reflexivity.
  - intros c t Hc Hascii. rewrite Hc.
    rewrite peekRune_ascii by lia. cbn [fst].
    pose proof (byteZ_range c) as R. unfold runeString.
    replace ((byteZ c <? 0)%Z) with false by lia.
    replace ((1114111 <? byteZ c)%Z) with false by lia.
    replace ((55296 <=? byteZ c)%Z) with false by lia.
    cbn [orb andb]. replace ((byteZ c <? 128)%Z) with true by lia.
    now rewrite byteOfZ_byteZ.
Qed.

(** ** Properties of the parser *)

Lemma parseExpression_error_token (fuel : nat) (p p' : parser) (tok : token) :
  parser_next p = Ret (tok, p') -> typ tok = tokenError ->
  parseExpression (S fuel) p = Ret (NodeError (ErrorString (val tok)), p').
Proof.
  intros H Ht. cbn [parseExpression]. unfold bind. now rewrite H, Ht.
Qed.

(** C9.  [isUnexpectedEOFError] holds of a node exactly when the node is an
    error node that carries an expected-versus-received mismatch whose
    received token kind is end-of-input; the parse of "lam x", whose body is
    missing, is such a node. *)
Theorem incomplete_input_predicate :
  (forall n, isUnexpectedEOFError n = true <->
             exists want, n = NodeError (ExpectError want tokenEOF))
  /\ parseString "lam x" = Ret (NodeError (ExpectError syntaxExpression tokenEOF))
  /\ (forall n, parseString "lam x" = Ret n -> isUnexpectedEOFError n = true).
Proof.
  split; [|split].
  - intros n. split.
    + destruct n as [[want got|msg]| | | | |]; try discriminate.
      destruct got; try discriminate. intros _. now exists want.
    + intros [want ->]. reflexivity.
  - vm_compute. reflexivity.
  - intros n H. vm_compute in H. injection H as <-. reflexivity.
Qed.

(** C10.  [isUnexpectedEOFError] is true only of error nodes with a mismatch
    whose received kind is end-of-input; it is false of every node that is
    not an error node and of every error node that carries a message, which
    is what [parseExpression] builds from an error token of the lexer; so
    the parses of "-" and "3x", whose lexing fails at the end of the text,
    are not classified as incomplete. *)
Theorem lexical_errors_are_not_incomplete :
  (forall n, isUnexpectedEOFError n = true ->
             exists want, n = NodeError (ExpectError want tokenEOF))
  /\ (forall n, isNodeError n = false -> isUnexpectedEOFError n = false)
  /\ (forall msg, isUnexpectedEOFError (NodeError (ErrorString msg)) = false)
  /\ (forall fuel p p' tok,
        parser_next p = Ret (tok, p') -> typ tok = tokenError ->
        exists n, parseExpression (S fuel) p = Ret (n, p')
                  /\ n = NodeError (ErrorString (val tok))
                  /\ isUnexpectedEOFError n = false)
  /\ (forall want, isUnexpectedEOFError (NodeError (ExpectError want tokenError)) = false)
  /\ parseString "-" = Ret (NodeError (ErrorString "bad number syntax: '-'"))
  /\ parseString "3x" = Ret (NodeError (ErrorString "bad number syntax: '3x'"))
  /\ (forall s n, s = "-" \/ s = "3x" -> parseString s = Ret n ->
        isNodeError n = true /\ isUnexpectedEOFError n = false).
Proof.
  repeat split.
  - destruct n as [[want got|msg]| | | | |]; try discriminate.
    destruct got; try discriminate. intros _. now exists want.
  - intros n H. destruct n; try reflexivity. discriminate H.
  - intros fuel p p' tok H Ht. eexists. split; [|split; reflexivity].
    now apply parseExpression_error_token.
  - destruct H as [-> | ->]; vm_compute in H0; injection H0 as <-; reflexivity.
  - destruct H as [-> | ->]; vm_compute in H0; injection H0 as <-; reflexivity.
Qed.

(** C7, the claim as stated fails for a referenced identifier: in
    "lam lam lam" the third word stands where an identifier is referenced,
    and it is read as the keyword of another lambda, whose parameter is
    missing; the result is an error node, not a lambda whose body is the
    identifier [lam]. *)
Lemma referenced_lam_is_a_keyword :
  parseString "lam lam lam" =
    Ret (NodeError (ExpectError syntaxIdentifier tokenEOF))
  /\ parseString "lam lam lam" <> Ret (NodeLam "lam" (NodeIdentifier "lam"))
  /\ parseString "lam x x" = Ret (NodeLam "x" (NodeIdentifier "x")).
Proof.
  assert (H : parseString "lam lam lam" =
              Ret (NodeError (ExpectError syntaxIdentifier tokenEOF)))
    by (vm_compute; reflexivity).
  split; [exact H|split].
  - rewrite H. discriminate.
  - vm_compute. reflexivity.
Qed.

(** *** Keywords *)

Lemma parseIdentifier_node (p p' : parser) (n : node) :
  parseIdentifier p = Ret (n, p') ->
  (exists tok, parser_next p = Ret (tok, p') /\
     ((typ tok = tokenIdentifier /\ n = NodeIdentifier (val tok))
      \/ (typ tok <> tokenIdentifier /\ n = newExpectError syntaxIdentifier (typ tok)))).
Proof.
  unfold parseIdentifier, bind. intros H.
  destruct (parser_next p) as [[tok p1]| |]; try discriminate H.
  exists tok. destruct (typ tok) eqn:Ht; simpl in H; unfold ret in H;
    injection H as <- <-; (split; [reflexivity|]);
    try (right; split; [discriminate|reflexivity]).
  left. split; reflexivity.
Qed.

Lemma parser_next_unnext (tok : token) (p : parser) :
  buf p = None ->
  (parser_unnext tok ;;; parser_next) p = Ret (tok, mkParser (lex p) None).
Proof.
  intros H. unfold bind, parser_unnext, parser_next. rewrite H. reflexivity.
Qed.

Lemma parser_next_buf (p p' : parser) (tok : token) :
  parser_next p = Ret (tok, p') -> buf p' = None.
Proof.
  unfold parser_next. intros H.
  destruct (buf p); [injection H as <- <-; reflexivity|].
  destruct (nextToken (lex p)) as [[t l']| |]; try discriminate H.
  injection H as <- <-. reflexivity.
Qed.

Lemma parseExpression_noKeywordIdentifier (fuel : nat) :
  forall p n p', parseExpression fuel p = Ret (n, p') ->
                 noKeywordIdentifier n = true.
Proof.
  induction fuel as [|fuel IH]; intros p n p' H; [discriminate H|].
  cbn [parseExpression] in H. unfold bind in H at 1.
  destruct (parser_next p) as [[tok p1]| |] eqn:Hnext; try discriminate H.
  pose proof (parser_next_buf _ _ _ Hnext) as Hbuf.
  destruct (typ tok) eqn:Ht.
  - injection H as <- <-. reflexivity.
  - injection H as <- <-. reflexivity.
  - unfold bind, parser_unnext in H. rewrite Hbuf in H.
    unfold parseNumber, bind, parser_next in H. cbn [buf lex] in H.
    destruct (SetString10 (val tok)); injection H as <- <-; reflexivity.
  - unfold bind, parser_unnext in H. rewrite Hbuf in H.
    unfold parseBool, bind, parser_next in H. cbn [buf lex] in H.
    destruct (val tok =? "true"); [injection H as <- <-; reflexivity|].
    destruct (val tok =? "false"); injection H as <- <-; reflexivity.
  - destruct (val tok =? "lam") eqn:Hlam.
    + unfold parseLam, bind in H.
      destruct (parseIdentifier p1) as [[param p2]| |] eqn:Hid; try discriminate H.
      apply parseIdentifier_node in Hid as (tk & _ & [[_ ->]|[_ ->]]).
      * destruct (parseExpression fuel p2) as [[body p3]| |] eqn:Hb;
          try discriminate H.
        apply IH in Hb.
        destruct (isNodeError body); injection H as <- <-; assumption.
      * injection H as <- <-. reflexivity.
    + destruct (val tok =? "app") eqn:Happ.
      * unfold parseApp, bind in H.
        destruct (parseExpression fuel p1) as [[fn p2]| |] eqn:Hf;
          try discriminate H.
        apply IH in Hf.
        destruct (isNodeError fn); [injection H as <- <-; assumption|].
        destruct (parseExpression fuel p2) as [[arg p3]| |] eqn:Ha;
          try discriminate H.
        apply IH in Ha.
        destruct (isNodeError arg); injection H as <- <-; [assumption|].
        simpl. now rewrite Hf, Ha.
      * unfold bind, parser_unnext in H. rewrite Hbuf in H.
        unfold parseIdentifier, bind, parser_next in H. cbn [buf lex] in H.
        rewrite Ht in H. simpl in H. injection H as <- <-.
        simpl. now rewrite Hlam, Happ.
  - unfold bind in H.
    destruct (parseExpression fuel p1) as [[e p2]| |] eqn:He; try discriminate H.
    apply IH in He.
    destruct (isNodeError e); [injection H as <- <-; assumption|].
    destruct (parser_next p2) as [[tok' p3]| |]; try discriminate H.
    destruct (negb (tokenType_eqb (typ tok') tokenRightParen));
      injection H as <- <-; [reflexivity|assumption].
  - injection H as <- <-. reflexivity.
Qed.

Lemma parseLam_parameter (pe : M parser node) (p p' : parser) (tok : token) :
  parser_next p = Ret (tok, p') -> typ tok = tokenIdentifier ->
  parseLam pe p =
  (body <- pe ;;
   if isNodeError body then ret body else ret (NodeLam (val tok) body)) p'.
Proof.
  intros H Ht. unfold parseLam, parseIdentifier, bind at 1 2.
  rewrite H, Ht. reflexivity.
Qed.

(** C7 as amended.  [lam] and [app] are keywords wherever an expression is
    expected, and an identifier can only be referenced where an expression
    is expected: no tree that the parser returns has an identifier node
    named [lam] or [app].  Only the word after the keyword [lam], the
    parameter, is read as a plain identifier whatever it is: "lam lam 1" and
    "lam app 1" are lambdas whose parameters are named [lam] and [app]. *)
Theorem keywords_by_position :
  (forall s n, parseString s = Ret n -> noKeywordIdentifier n = true)
  /\ (forall fuel p p' tok,
        parser_next p = Ret (tok, p') -> typ tok = tokenIdentifier ->
        (val tok = "lam" ->
         parseExpression (S fuel) p = parseLam (parseExpression fuel) p')
        /\ (val tok = "app" ->
            parseExpression (S fuel) p = parseApp (parseExpression fuel) p'))
  /\ (forall pe p p' tok,
        parser_next p = Ret (tok, p') -> typ tok = tokenIdentifier ->
        parseLam pe p =
        (body <- pe ;;
         if isNodeError body then ret body
         else ret (NodeLam (val tok) body)) p')
  /\ parseString "lam lam 1" = Ret (NodeLam "lam" (NodeNumber 1))
  /\ parseString "lam app 1" = Ret (NodeLam "app" (NodeNumber 1))
  /\ parseString "lam lam lam" =
     Ret (NodeError (ExpectError syntaxIdentifier tokenEOF))
  /\ parseString "(app)" =
     Ret (NodeError (ExpectError syntaxExpression tokenRightParen)).
Proof.
  split; [|split; [|split; [|repeat split; vm_compute; reflexivity]]].
  - intros s n H. unfold parseString, parse, bind in H.
    destruct (parseExpression (S (String.length s)) (newParser s))
      as [[root p1]| |] eqn:Hroot; try discriminate H.
    apply parseExpression_noKeywordIdentifier in Hroot.
    destruct (isNodeError root); [injection H as <-; assumption|].
    destruct (parser_next p1) as [[tok p2]| |]; try discriminate H.
    destruct (negb (tokenType_eqb (typ tok) tokenEOF));
      injection H as <-; [reflexivity|assumption].
  - intros fuel p p' tok H Ht. split; intros Hv;
      cbn [parseExpression]; unfold bind at 1; rewrite H, Ht, Hv; reflexivity.
  - intros pe p p' tok H Ht. now apply parseLam_parameter.
Qed.

(** *** Number literals *)

Lemma byteZ_byteOfZ (z : Z) : (0 <= z < 256)%Z -> byteZ (byteOfZ z) = z.
Proof.
  intros H. unfold byteZ, byteOfZ.
  rewrite N_ascii_embedding by lia. lia.
Qed.

Lemma positionalValue_app (a b : string) :
  positionalValue (a ++ b) =
  (positionalValue a * 10 ^ Z.of_nat (String.length b) + positionalValue b)%Z.
Proof.
  induction a as [|c a IH]; [simpl; lia|].
  cbn [append positionalValue]. rewrite IH, length_app, Nat2Z.inj_add.
  rewrite Z.pow_add_r by lia. ring.
Qed.

Lemma allBytes_app (q : ascii -> bool) (a b : string) :
  allBytes q (a ++ b) = allBytes q a && allBytes q b.
Proof.
  induction a as [|c a IH]; [reflexivity|].
  cbn [append allBytes]. now rewrite IH, andb_assoc.
Qed.

Lemma digitValue_digit (c : ascii) :
  isDigitByte c = true -> digitValue c = Some (byteZ c - 48)%Z.
Proof. unfold isDigitByte, digitValue. now intros ->. Qed.

(** [scanDigits] computes the positional value. *)
Lemma scanDigits_positional (ds : string) :
  forall acc, allBytes isDigitByte ds = true ->
    scanDigits acc ds =
    Some (acc * 10 ^ Z.of_nat (String.length ds) + positionalValue ds)%Z.
Proof.
  induction ds as [|c ds IH]; intros acc H.
  - simpl. f_equal; lia.
  - cbn [allBytes] in H. apply andb_true_iff in H as [Hc Hds].
    cbn [scanDigits]. rewrite (digitValue_digit _ Hc), (IH _ Hds).
    cbn [String.length positionalValue]. rewrite Nat2Z.inj_succ.
    rewrite Z.pow_succ_r by lia. f_equal. ring.
Qed.

Lemma digit_not_sign (c : ascii) :
  isDigitByte c = true -> (c =? "-")%char = false /\ (c =? "+")%char = false.
Proof.
  intros H. split; apply Ascii.eqb_neq; intros ->; discriminate H.
Qed.

Lemma isNumberLiteral_inv (s : string) :
  isNumberLiteral s = true ->
  exists sign d0 ds,
    s = sign ++ String d0 ds /\ (sign = "" \/ sign = "-")
    /\ allBytes isDigitByte (String d0 ds) = true.
Proof.
  destruct s as [|c t]; [discriminate|]. cbn [isNumberLiteral].
  destruct (c =? "-")%char eqn:E.
  - apply Ascii.eqb_eq in E as ->. intros H.
    apply andb_true_iff in H as [Hne Hds].
    destruct t as [|d0 ds]; [discriminate Hne|].
    exists "-", d0, ds. auto.
  - intros H. exists "", c, t. auto.
Qed.

(** [SetString] on a number literal gives the value of the literal. *)
Lemma SetString10_literal (s : string) :
  isNumberLiteral s = true -> SetString10 s = Some (literalValue s).
Proof.
  destruct s as [|c t]; [discriminate|].
  cbn [isNumberLiteral SetString10 literalValue].
  destruct (c =? "-")%char eqn:E.
  - intros H. apply andb_true_iff in H as [Hne Hds].
    destruct t as [|d0 ds]; [discriminate Hne|].
    rewrite (scanDigits_positional _ 0 Hds). cbn [option_map]. f_equal; lia.
  - intros H. pose proof H as H'. cbn [allBytes] in H'.
    apply andb_true_iff in H' as [Hc _].
    destruct (digit_not_sign _ Hc) as [_ ->].
    rewrite (scanDigits_positional _ 0 H). f_equal; lia.
Qed.

(** The parser on a number literal. *)
Lemma parseString_literal (s : string) :
  isNumberLiteral s = true -> parseString s = Ret (NodeNumber (literalValue s)).
Proof.
  intros H. pose proof (SetString10_literal s H) as Hset.
  destruct (isNumberLiteral_inv s H) as (sign & d0 & ds & Hs & Hsign & Hds).
  assert (Htok : nextToken (newLexer s) =
                 Ret (mktok tokenNumber s,
                      mkLexer s (String.length s) (String.length s) 0)).
  { unfold newLexer.
    rewrite (nextToken_number s 0 0 0 sign d0 ds "");
      [|now rewrite append_nil_r|assumption|assumption|reflexivity].
    cbv zeta. cbn [peekRune fst snd]. change (isBoundary eof) with true.
    cbv iota. rewrite <- Hs. do 3 f_equal.
    all: rewrite Hs, length_app; reflexivity. }
  assert (Heof : nextToken (mkLexer s (String.length s) (String.length s) 0) =
                 Ret (mktok tokenEOF "",
                      mkLexer s (String.length s) (String.length s) 0)).
  { apply nextToken_eof with (sp := ""); [|lia|reflexivity].
    pose proof (drop_length_app s "") as E. now rewrite append_nil_r in E. }
  unfold parseString, parse, newParser. unfold bind at 1.
  cbn [parseExpression]. unfold bind at 1. unfold parser_next at 1.
  cbn [buf lex]. rewrite Htok. cbn [typ].
  unfold bind at 1, parser_unnext at 1. cbn [buf lex].
  unfold parseNumber, bind at 1, parser_next at 1. cbn [buf lex val].
  rewrite Hset. unfold ret at 1. cbn [isNodeError].
  unfold bind, parser_next. cbn [buf lex]. rewrite Heof. reflexivity.
Qed.

(** *** Printing an integer *)

Lemma decimalDigits_S (fuel : nat) (n : Z) (acc : string) :
  decimalDigits (S fuel) n acc =
  if (n <? 10)%Z then String (digitChar (n mod 10)) acc
  else decimalDigits fuel (n / 10) (String (digitChar (n mod 10)) acc).
Proof. reflexivity. Qed.

Lemma decimalDigits_acc (fuel : nat) :
  forall n acc, decimalDigits fuel n acc = decimalDigits fuel n "" ++ acc.
Proof.
  induction fuel as [|fuel IH]; intros n acc; [reflexivity|].
  rewrite !decimalDigits_S. destruct (n <? 10)%Z; [reflexivity|].
  rewrite IH, (IH _ (String _ "")), append_assoc. reflexivity.
Qed.

Lemma digitChar_digit (d : Z) :
  (0 <= d < 10)%Z ->
  isDigitByte (digitChar d) = true /\ (byteZ (digitChar d) - 48 = d)%Z.
Proof.
  intros H. unfold isDigitByte, digitChar.
  rewrite byteZ_byteOfZ by lia. unfold isDigit. split; lia.
Qed.

Lemma decimalDigits_spec (fuel : nat) :
  forall n, (0 <= n < 2 ^ Z.of_nat (S fuel))%Z ->
    decimalDigits (S fuel) n "" <> ""
    /\ allBytes isDigitByte (decimalDigits (S fuel) n "") = true
    /\ positionalValue (decimalDigits (S fuel) n "") = n.
Proof.
  induction fuel as [|fuel IH]; intros n Hn;
    rewrite decimalDigits_S;
    pose proof (Z.mod_pos_bound n 10 ltac:(lia)) as Hm;
    destruct (digitChar_digit (n mod 10) Hm) as [Hd Hv];
    destruct (n <? 10)%Z eqn:E.
  1, 3: apply Z.ltb_lt in E; (split; [discriminate|]); split;
    [cbn [allBytes]; now rewrite Hd
    |cbn [positionalValue String.length]; rewrite Hv;
     rewrite Z.mod_small by lia; simpl; lia].
  - apply Z.ltb_ge in E. simpl in Hn. lia.
  - apply Z.ltb_ge in E. rewrite decimalDigits_acc.
    rewrite Nat2Z.inj_succ, Z.pow_succ_r in Hn by lia.
    assert (Hq : (0 <= n / 10 < 2 ^ Z.of_nat (S fuel))%Z).
    { split; [apply Z.div_pos; lia|].
      apply Z.div_lt_upper_bound; lia. }
    destruct (IH _ Hq) as (Hne & Hall & Hpv).
    split; [|split].
    + destruct (decimalDigits (S fuel) (n / 10) "");
        [congruence|simpl; discriminate].
    + rewrite allBytes_app, Hall. cbn [allBytes]. now rewrite Hd.
    + rewrite positionalValue_app, Hpv.
      cbn [positionalValue String.length]. rewrite Hv.
      pose proof (Z.div_mod n 10 ltac:(lia)). simpl. lia.
Qed.

Lemma natString_spec (n : Z) :
  (0 <= n)%Z ->
  natString n <> ""
  /\ allBytes isDigitByte (natString n) = true
  /\ positionalValue (natString n) = n.
Proof.
  intros Hn. unfold natString. apply decimalDigits_spec.
  split; [assumption|].
  rewrite Nat2Z.inj_succ, Z2Nat.id by apply Z.log2_nonneg.
  destruct (Z.eq_dec n 0) as [-> | Hnz]; [reflexivity|].
  apply Z.log2_spec. lia.
Qed.

(** The decimal text of an integer is a number literal that denotes it. *)
Lemma bigInt_String_literal (z : Z) :
  isNumberLiteral (bigInt_String z) = true
  /\ literalValue (bigInt_String z) = z.
Proof.
  unfold bigInt_String. destruct (z <? 0)%Z eqn:E.
  - apply Z.ltb_lt in E.
    destruct (natString_spec (- z) ltac:(lia)) as (Hne & Hall & Hpv).
    cbn [isNumberLiteral literalValue]. rewrite Ascii.eqb_refl.
    rewrite Hall, Hpv. split; [|lia].
    destruct (natString (- z)); [congruence|reflexivity].
  - apply Z.ltb_ge in E.
    destruct (natString_spec z E) as (Hne & Hall & Hpv).
    destruct (natString z) as [|c t] eqn:Hs; [congruence|].
    cbn [isNumberLiteral literalValue].
    pose proof Hall as Hc. cbn [allBytes] in Hc.
    apply andb_true_iff in Hc as [Hc _].
    destruct (digit_not_sign _ Hc) as [-> _]. split; assumption.
Qed.

(** *** The parser always returns a node *)

Lemma parser_next_total (p : parser) :
  buf p = None -> pos (lex p) <= String.length (input (lex p)) ->
  exists tok p',
    parser_next p = Ret (tok, p')
    /\ buf p' = None
    /\ input (lex p') = input (lex p)
    /\ pos (lex p') <= String.length (input (lex p))
    /\ (typ tok = tokenError \/ typ tok = tokenEOF
        \/ pos (lex p) < pos (lex p')).
Proof.
  intros Hbuf Hle. unfold parser_next. rewrite Hbuf.
  destruct (nextToken_total (lex p) Hle) as (t & l' & H & Hin & Hlen & Hprog).
  rewrite H. exists t, (mkParser l' None). cbn [buf lex]. auto.
Qed.

Lemma unnext_then (A : Type) (k : M parser A) (tok : token) (p : parser) :
  buf p = None ->
  (parser_unnext tok ;;; k) p = k (mkParser (lex p) (Some tok)).
Proof. intros H. unfold bind, parser_unnext. now rewrite H. Qed.

Lemma parseExpression_total (fuel : nat) :
  forall p,
    buf p = None -> pos (lex p) <= String.length (input (lex p)) ->
    String.length (input (lex p)) - pos (lex p) < fuel ->
    exists n p',
      parseExpression fuel p = Ret (n, p')
      /\ input (lex p') = input (lex p)
      /\ (isNodeError n = false ->
          buf p' = None
          /\ pos (lex p') <= String.length (input (lex p))
          /\ pos (lex p) < pos (lex p')).
Proof.
  induction fuel as [|fuel IH]; intros p Hbuf Hle Hfuel; [lia|].
  cbn [parseExpression]. unfold bind at 1.
  destruct (parser_next_total p Hbuf Hle)
    as (tok & p1 & Hnext & Hbuf1 & Hin1 & Hle1 & Hprog).
  rewrite Hnext.
  destruct (typ tok) eqn:Ht.
  - eexists _, _. split; [reflexivity|]. split; [assumption|discriminate].
  - eexists _, _. split; [reflexivity|]. split; [assumption|discriminate].
  - destruct Hprog as [E|[E|Hlt]]; try discriminate E.
    rewrite unnext_then by assumption.
    unfold parseNumber, bind, parser_next. cbn [buf lex].
    destruct (SetString10 (val tok)); eexists _, _;
      (split; [reflexivity|]); cbn [lex buf isNodeError];
      (split; [assumption|]); try discriminate.
    intros _. repeat split; try lia. 
  - destruct Hprog as [E|[E|Hlt]]; try discriminate E.
    rewrite unnext_then by assumption.
    unfold parseBool, bind, parser_next. cbn [buf lex].
    destruct (val tok =? "true"); [|destruct (val tok =? "false")];
      eexists _, _; (split; [reflexivity|]); cbn [lex buf isNodeError];
      (split; [assumption|]); try discriminate;
      intros _; repeat split; lia.
  - destruct Hprog as [E|[E|Hlt]]; try discriminate E.
    destruct (val tok =? "lam").
    + unfold parseLam. unfold bind at 1. unfold parseIdentifier, bind at 1.
      destruct (parser_next_total p1 Hbuf1 ltac:(rewrite Hin1; lia))
        as (tok2 & p2 & Hnext2 & Hbuf2 & Hin2 & Hle2 & Hprog2).
      rewrite Hnext2.
      destruct (typ tok2) eqn:Ht2; cbn [tokenType_eqb negb]; unfold ret at 1;
        cbn [newExpectError];
        try (eexists _, _; split; [reflexivity|];
             split; [congruence|discriminate]).
      destruct Hprog2 as [E|[E|Hlt2]]; try discriminate E.
      destruct (IH p2 Hbuf2) as (body & p3 & Hbody & Hin3 & Hok3);
        [rewrite Hin2, Hin1; rewrite Hin1 in Hle2; lia
        |rewrite Hin2, Hin1; rewrite Hin1 in Hle2; lia|].
      unfold bind. rewrite Hbody.
      destruct (isNodeError body) eqn:Hb; eexists _, _;
        (split; [reflexivity|]); (split; [congruence|]);
        [rewrite Hb; discriminate|].
      intros _. destruct (Hok3 eq_refl) as (B & L & P).
      rewrite Hin2, Hin1 in L. repeat split; try assumption; lia.
    + destruct (val tok =? "app").
      * unfold parseApp. unfold bind at 1.
        destruct (IH p1 Hbuf1) as (fn & p2 & Hfn & Hin2 & Hok2);
          [rewrite Hin1; lia|rewrite Hin1; lia|].
        rewrite Hfn.
        destruct (isNodeError fn) eqn:Hf.
        -- eexists _, _. split; [reflexivity|]. split; [congruence|].
           rewrite Hf. discriminate.
        -- destruct (Hok2 eq_refl) as (B2 & L2 & P2). rewrite Hin1 in L2.
           destruct (IH p2 B2) as (arg & p3 & Harg & Hin3 & Hok3);
             [rewrite Hin2, Hin1; lia|rewrite Hin2, Hin1; lia|].
           unfold bind. rewrite Harg.
           destruct (isNodeError arg) eqn:Ha; eexists _, _;
             (split; [reflexivity|]); (split; [congruence|]);
             [rewrite Ha; discriminate|].
           intros _. destruct (Hok3 eq_refl) as (B & L & P).
           rewrite Hin2, Hin1 in L. repeat split; try assumption; lia.
      * rewrite unnext_then by assumption.
        unfold parseIdentifier, bind, parser_next. cbn [buf lex].
        rewrite Ht. cbn [tokenType_eqb negb].
        eexists _, _. split; [reflexivity|]. cbn [lex buf].
        split; [assumption|]. intros _. repeat split; lia.
  - destruct Hprog as [E|[E|Hlt]]; try discriminate E.
    destruct (IH p1 Hbuf1) as (e & p2 & He & Hin2 & Hok2);
      [rewrite Hin1; lia|rewrite Hin1; lia|].
    unfold bind at 1. rewrite He.
    destruct (isNodeError e) eqn:Hee.
    + eexists _, _. split; [reflexivity|]. split; [congruence|].
      rewrite Hee. discriminate.
    + destruct (Hok2 eq_refl) as (B2 & L2 & P2). rewrite Hin1 in L2.
      destruct (parser_next_total p2 B2 ltac:(rewrite Hin2, Hin1; lia))
        as (tok3 & p3 & Hnext3 & Hbuf3 & Hin3 & Hle3 & Hprog3).
      unfold bind. rewrite Hnext3.
      destruct (typ tok3) eqn:Ht3; cbn [tokenType_eqb negb];
        eexists _, _; (split; [reflexivity|]); (split; [congruence|]);
        try discriminate.
      destruct Hprog3 as [E|[E|Hlt3]]; try discriminate E.
      intros _. rewrite Hin2, Hin1 in Hle3. repeat split; try assumption; lia.
  - eexists _, _. split; [reflexivity|]. split; [assumption|discriminate].
Qed.

Lemma parse_total (s : string) :
  exists n p', parse (S (String.length s)) (newParser s) = Ret (n, p').
Proof.
  destruct (parseExpression_total (S (String.length s)) (newParser s))
    as (root & p1 & H & Hin & Hok); cbn [newParser newLexer lex buf input pos];
    try lia; try reflexivity.
  unfold parse, bind at 1. rewrite H.
  destruct (isNodeError root) eqn:E; [eexists _, _; reflexivity|].
  destruct (Hok eq_refl) as (B & L & _).
  cbn [newParser newLexer lex input] in Hin, L.
  destruct (parser_next_total p1 B ltac:(rewrite Hin; exact L))
    as (tok & p2 & Hnext & _).
  unfold bind. rewrite Hnext.
  destruct (negb (tokenType_eqb (typ tok) tokenEOF)); eexists _, _; reflexivity.
Qed.

(** *** Error nodes stay at the root *)

Lemma parseExpression_noErrorNode (fuel : nat) :
  forall p n p', parseExpression fuel p = Ret (n, p') ->
                 isNodeError n = true \/ noErrorNode n = true.
Proof.
  induction fuel as [|fuel IH]; intros p n p' H; [discriminate H|].
  cbn [parseExpression] in H. unfold bind in H at 1.
  destruct (parser_next p) as [[tok p1]| |] eqn:Hnext; try discriminate H.
  pose proof (parser_next_buf _ _ _ Hnext) as Hbuf.
  destruct (typ tok) eqn:Ht.
  - injection H as <- <-. now left.
  - injection H as <- <-. now left.
  - rewrite unnext_then in H by assumption.
    unfold parseNumber, bind, parser_next in H. cbn [buf lex] in H.
    destruct (SetString10 (val tok)); injection H as <- <-; auto.
  - rewrite unnext_then in H by assumption.
    unfold parseBool, bind, parser_next in H. cbn [buf lex] in H.
    destruct (val tok =? "true"); [injection H as <- <-; auto|].
    destruct (val tok =? "false"); injection H as <- <-; auto.
  - destruct (val tok =? "lam").
    + unfold parseLam, bind in H.
      destruct (parseIdentifier p1) as [[param p2]| |] eqn:Hid; try discriminate H.
      apply parseIdentifier_node in Hid as (tk & _ & [[_ ->]|[_ ->]]).
      * destruct (parseExpression fuel p2) as [[body p3]| |] eqn:Hb;
          try discriminate H.
        apply IH in Hb.
        destruct (isNodeError body) eqn:E; injection H as <- <-; [auto|].
        destruct Hb as [Hb|Hb]; [congruence|]. right. exact Hb.
      * injection H as <- <-. now left.
    + destruct (val tok =? "app").
      * unfold parseApp, bind in H.
        destruct (parseExpression fuel p1) as [[fn p2]| |] eqn:Hf;
          try discriminate H.
        apply IH in Hf.
        destruct (isNodeError fn) eqn:Ef; [injection H as <- <-; auto|].
        destruct (parseExpression fuel p2) as [[arg p3]| |] eqn:Ha;
          try discriminate H.
        apply IH in Ha.
        destruct (isNodeError arg) eqn:Ea; injection H as <- <-; [auto|].
        destruct Hf as [Hf|Hf]; [congruence|].
        destruct Ha as [Ha|Ha]; [congruence|].
        right. simpl. now rewrite Hf, Ha.
      * rewrite unnext_then in H by assumption.
        unfold parseIdentifier, bind, parser_next in H. cbn [buf lex] in H.
        rewrite Ht in H. simpl in H. injection H as <- <-. now right.
  - unfold bind in H.
    destruct (parseExpression fuel p1) as [[e p2]| |] eqn:He; try discriminate H.
    apply IH in He.
    destruct (isNodeError e) eqn:E; [injection H as <- <-; auto|].
    destruct (parser_next p2) as [[tok' p3]| |]; try discriminate H.
    destruct (negb (tokenType_eqb (typ tok') tokenRightParen));
      injection H as <- <-; [now left|].
    destruct He as [He|He]; [discriminate He|now right].
  - injection H as <- <-. now left.
Qed.

Lemma parseString_returns (s : string) : exists n, parseString s = Ret n.
Proof.
  destruct (parse_total s) as (n & p' & H).
  exists n. unfold parseString. now rewrite H.
Qed.

Lemma parseString_root_error (s : string) (n : node) :
  parseString s = Ret n -> isNodeError n = true \/ noErrorNode n = true.
Proof.
  intros H. unfold parseString, parse, bind in H.
  destruct (parseExpression (S (String.length s)) (newParser s))
    as [[root p1]| |] eqn:Hroot; try discriminate H.
  apply parseExpression_noErrorNode in Hroot.
  destruct (isNodeError root) eqn:E; [injection H as <-; now left|].
  destruct (parser_next p1) as [[tok p2]| |]; try discriminate H.
  destruct (negb (tokenType_eqb (typ tok) tokenEOF));
    injection H as <-; [now left|].
  destruct Hroot as [Hr|Hr]; [congruence|now right].
Qed.

(** Every input is parsed to a node: the parser does not panic and its
    recursion ends. *)
Theorem parseString_total (s : string) : exists n, parseString s = Ret n.
Proof. apply parseString_returns. Qed.

(** A parse that fails is an error node and nothing else; a parse that
    succeeds holds no error node at any depth. *)
Theorem parseString_error_at_root (s : string) (n : node)
    (H : parseString s = Ret n) :
  isNodeError n = true \/ noErrorNode n = true.
Proof. now apply parseString_root_error with (s := s). Qed.

(** *** Further properties of the parser *)

(** An empty or blank input (spaces, tabs, newlines only) parses to the
    error "expecting expression; got EOF", which [isUnexpectedEOFError]
    classifies as incomplete input. *)
Theorem blank_input_is_incomplete (s : string)
    (H : allBytes (fun c => isSpace (byteZ c)) s = true) :
  parseString s = Ret (NodeError (ExpectError syntaxExpression tokenEOF))
  /\ errorVal_Error (ExpectError syntaxExpression tokenEOF) =
     "expecting expression; got EOF"
  /\ isUnexpectedEOFError (NodeError (ExpectError syntaxExpression tokenEOF))
     = true.
Proof.
  split; [|split; reflexivity].
  unfold parseString, parse, newParser, newLexer. unfold bind at 1.
  cbn [parseExpression]. unfold bind at 1, parser_next at 1. cbn [buf lex].
  rewrite (nextToken_eof s 0 0 0 s eq_refl ltac:(lia) H). reflexivity.
Qed.

(** A word (a letter, then letters and digits) other than [lam], [app],
    [true] and [false] is a program by itself: it parses to the identifier
    node of that name. *)
Theorem identifier_program (c0 : ascii) (ws : string)
    (Hc0 : isLetterByte c0 = true)
    (Hws : allBytes isWordByte ws = true)
    (Hkw : (String c0 ws =? "lam") || (String c0 ws =? "app")
           || (String c0 ws =? "true") || (String c0 ws =? "false") = false) :
  parseString (String c0 ws) = Ret (NodeIdentifier (String c0 ws)).
Proof.
  apply orb_false_iff in Hkw as [Hkw Hfalse].
  apply orb_false_iff in Hkw as [Hkw Htrue].
  apply orb_false_iff in Hkw as [Hlam Happ].
  set (name := String c0 ws) in *.
  assert (Htok : nextToken (newLexer name) =
                 Ret (mktok tokenIdentifier name,
                      mkLexer name (String.length name) (String.length name) 0)).
  { unfold newLexer.
    rewrite (nextToken_identifier name 0 0 0 c0 ws ""
               ltac:(unfold name; now rewrite append_nil_r) Hc0 Hws eq_refl).
    cbv zeta. cbn [peekRune fst snd]. change (isBoundary eof) with true.
    cbv iota. fold name. rewrite Htrue, Hfalse. reflexivity. }
  assert (Heof : nextToken (mkLexer name (String.length name)
                                    (String.length name) 0) =
                 Ret (mktok tokenEOF "",
                      mkLexer name (String.length name) (String.length name) 0)).
  { apply nextToken_eof with (sp := ""); [|lia|reflexivity].
    pose proof (drop_length_app name "") as E. now rewrite append_nil_r in E. }
  unfold parseString, parse, newParser. unfold bind at 1.
  cbn [parseExpression]. unfold bind at 1, parser_next at 1. cbn [buf lex].
  rewrite Htok. cbn [typ val]. rewrite Hlam, Happ.
  rewrite unnext_then by reflexivity.
  unfold parseIdentifier, bind at 1, parser_next at 1. cbn [buf lex typ val].
  cbn [tokenType_eqb negb]. unfold ret at 1. cbn [isNodeError].
  unfold bind, parser_next. cbn [buf lex]. rewrite Heof. reflexivity.
Qed.

(** *** The formatter's output parses back *)

Lemma drop_nonempty_bound (ps : nat) (inp t : string) :
  drop ps inp = t -> t <> "" -> ps < String.length inp.
Proof.
  intros H Ht. pose proof (length_drop ps inp) as L. rewrite H in L.
  destruct t; [congruence|simpl in L; lia].
Qed.

Lemma boundary_not_word (r : Z) :
  isBoundary r = true -> isWordRune r = false /\ isDigit r = false.
Proof.
  intros Hb. unfold isBoundary, isSpace, eof in Hb.
  unfold isWordRune, isDigit, isLetter.
  repeat (apply orb_true_iff in Hb as [Hb|Hb]); lia.
Qed.

Lemma nextToken_word_at (l : lexer) (sp : string) (c0 : ascii)
    (ws rest : string) :
  drop (pos l) (input l) = sp ++ String c0 ws ++ rest ->
  allBytes isSpaceByte sp = true ->
  isLetterByte c0 = true -> allBytes isWordByte ws = true ->
  isBoundary (fst (peekRune rest)) = true ->
  exists l',
    nextToken l =
    Ret (mktok (if (String c0 ws =? "true") || (String c0 ws =? "false")
                then tokenBool else tokenIdentifier) (String c0 ws), l')
    /\ input l' = input l
    /\ drop (pos l') (input l) = rest
    /\ pos l' <= String.length (input l).
Proof.
  intros Hd Hsp Hc0 Hws Hb. destruct l as [inp ps st w].
  cbn [input pos] in *.
  destruct (boundary_not_word _ Hb) as [Hstop _].
  pose proof (length_drop ps inp) as Hlen.
  rewrite Hd, !length_app in Hlen. cbn [String.length] in Hlen.
  assert (Hd' : drop (ps + String.length sp) inp = String c0 ws ++ rest).
  { rewrite drop_add, Hd. apply drop_length_app. }
  assert (Hfirst : isSpace (fst (peekRune (String c0 ws ++ rest))) = false).
  { cbn [append]. rewrite peekRune_ascii by now apply isLetter_ascii.
    cbn [fst]. unfold isLetterByte, isLetter in Hc0. unfold isSpace.
    apply orb_true_iff in Hc0 as [H|H]; apply andb_true_iff in H; lia. }
  rewrite (nextToken_skip_run inp ps st w st w sp _ Hd ltac:(lia) Hsp Hfirst).
  rewrite (nextToken_identifier inp _ st w c0 ws rest Hd' Hc0 Hws Hstop).
  cbv zeta. rewrite Hb. eexists. split; [reflexivity|]. cbn [input pos].
  split; [reflexivity|]. split; [|lia].
  replace (ps + String.length sp + S (String.length ws))
    with (ps + String.length sp + String.length (String c0 ws))
    by reflexivity.
  rewrite drop_add, Hd'. apply drop_length_app.
Qed.

Lemma nextToken_number_at (l : lexer) (sp lit rest : string) :
  drop (pos l) (input l) = sp ++ lit ++ rest ->
  allBytes isSpaceByte sp = true ->
  isNumberLiteral lit = true ->
  isBoundary (fst (peekRune rest)) = true ->
  exists l',
    nextToken l = Ret (mktok tokenNumber lit, l')
    /\ input l' = input l
    /\ drop (pos l') (input l) = rest
    /\ pos l' <= String.length (input l).
Proof.
  intros Hd Hsp Hlit Hb. destruct l as [inp ps st w].
  cbn [input pos] in *.
  destruct (boundary_not_word _ Hb) as [_ Hstop].
  destruct (isNumberLiteral_inv lit Hlit) as (sign & d0 & ds & -> & Hsign & Hds).
  pose proof (length_drop ps inp) as Hlen.
  rewrite Hd, !length_app in Hlen. cbn [String.length] in Hlen.
  assert (Hd' : drop (ps + String.length sp) inp
                = sign ++ String d0 ds ++ rest).
  { rewrite drop_add, Hd, drop_length_app. apply append_assoc. }
  assert (Hd0 : isDigit (byteZ d0) = true).
  { cbn [allBytes] in Hds. now apply andb_true_iff in Hds as [Hd0 _]. }
  assert (Hfirst : isSpace (fst (peekRune ((sign ++ String d0 ds) ++ rest)))
                   = false).
  { destruct Hsign as [-> | ->]; cbn [append].
    - rewrite peekRune_ascii by now apply isDigit_ascii.
      cbn [fst]. unfold isDigit in Hd0. unfold isSpace.
      apply andb_true_iff in Hd0. lia.
    - reflexivity. }
  rewrite (nextToken_skip_run inp ps st w st w sp _ Hd ltac:(lia) Hsp Hfirst).
  rewrite (nextToken_number inp _ st w sign d0 ds rest Hd' Hsign Hds Hstop).
  cbv zeta. rewrite Hb. eexists. split; [reflexivity|]. cbn [input pos].
  split; [reflexivity|]. split; [|lia].
  replace (ps + String.length sp + (String.length sign + S (String.length ds)))
    with (ps + String.length sp + String.length (sign ++ String d0 ds))
    by (rewrite length_app; reflexivity).
  rewrite drop_add, Hd', <- append_assoc. apply drop_length_app.
Qed.

Lemma parser_next_lex (p : parser) (t : token) (l' : lexer) :
  buf p = None -> nextToken (lex p) = Ret (t, l') ->
  parser_next p = Ret (t, mkParser l' None).
Proof. intros Hb H. unfold parser_next. now rewrite Hb, H. Qed.

Lemma allBytes_space_app (a b : string) :
  allBytes isSpaceByte a = true -> allBytes isSpaceByte b = true ->
  allBytes isSpaceByte (a ++ b) = true.
Proof. intros Ha Hb. now rewrite allBytes_app, Ha, Hb. Qed.

Lemma format_simple (n : node) (indent : string) :
  isSimpleNode n = true -> format n indent = indent ++ valString n.
Proof. destruct n; try discriminate; reflexivity. Qed.

Lemma isWord_inv (s : string) :
  isWord s = true ->
  exists c0 ws, s = String c0 ws /\ isLetterByte c0 = true
                /\ allBytes isWordByte ws = true.
Proof.
  destruct s as [|c0 ws]; [discriminate|]. cbn [isWord]. intros H.
  apply andb_true_iff in H as [H1 H2]. now exists c0, ws.
Qed.

(** The three leaves. *)
Lemma parseExpression_leaf (n : node) :
  isSimpleNode n = true -> wellFormed n = true ->
  forall fuel p sp rest,
    buf p = None ->
    drop (pos (lex p)) (input (lex p)) = sp ++ valString n ++ rest ->
    allBytes isSpaceByte sp = true ->
    isBoundary (fst (peekRune rest)) = true ->
    exists p',
      parseExpression (S fuel) p = Ret (n, p')
      /\ buf p' = None /\ input (lex p') = input (lex p)
      /\ drop (pos (lex p')) (input (lex p)) = rest
      /\ pos (lex p') <= String.length (input (lex p)).
Proof.
  intros Hsimple Hwf fuel p sp rest Hbuf Hd Hsp Hb.
  destruct n as [e|fn arg|param body|name|z|b]; try discriminate Hsimple.
  - (* identifier *)
    cbn [wellFormed] in Hwf. apply andb_true_iff in Hwf as [Hw Hkw].
    apply negb_true_iff in Hkw.
    apply orb_false_iff in Hkw as [Hkw Hfalse].
    apply orb_false_iff in Hkw as [Hkw Htrue].
    apply orb_false_iff in Hkw as [Hlam Happ].
    destruct (isWord_inv _ Hw) as (c0 & ws & -> & Hc0 & Hws).
    cbn [valString] in Hd.
    destruct (nextToken_word_at (lex p) sp c0 ws rest Hd Hsp Hc0 Hws Hb)
      as (l' & Htok & Hin & Hdrop & Hle').
    rewrite Htrue, Hfalse in Htok. cbn [orb] in Htok.
    exists (mkParser l' None). cbn [buf lex]. repeat split; try assumption.
    cbn [parseExpression]. unfold bind at 1.
    rewrite (parser_next_lex p _ _ Hbuf Htok). cbn [typ val].
    rewrite Hlam, Happ. rewrite unnext_then by reflexivity.
    unfold parseIdentifier, bind, parser_next. cbn [buf lex typ val].
    reflexivity.
  - (* number *)
    destruct (bigInt_String_literal z) as [Hlit Hval].
    cbn [valString] in Hd.
    destruct (nextToken_number_at (lex p) sp _ rest Hd Hsp Hlit Hb)
      as (l' & Htok & Hin & Hdrop & Hle').
    exists (mkParser l' None). cbn [buf lex]. repeat split; try assumption.
    cbn [parseExpression]. unfold bind at 1.
    rewrite (parser_next_lex p _ _ Hbuf Htok). cbn [typ val].
    rewrite unnext_then by reflexivity.
    unfold parseNumber, bind, parser_next. cbn [buf lex typ val].
    rewrite (SetString10_literal _ Hlit), Hval. reflexivity.
  - (* boolean *)
    cbn [valString] in Hd.
    assert (Hshape : exists c0 ws,
               (if b then "true" else "false") = String c0 ws
               /\ isLetterByte c0 = true /\ allBytes isWordByte ws = true
               /\ (String c0 ws =? "true") || (String c0 ws =? "false") = true).
    { destruct b; eexists _, _; repeat split; reflexivity. }
    destruct Hshape as (c0 & ws & Hs & Hc0 & Hws & Hbool).
    rewrite Hs in Hd.
    destruct (nextToken_word_at (lex p) sp c0 ws rest Hd Hsp Hc0 Hws Hb)
      as (l' & Htok & Hin & Hdrop & Hle').
    rewrite Hbool in Htok. rewrite <- Hs in Htok.
    exists (mkParser l' None). cbn [buf lex]. repeat split; try assumption.
    cbn [parseExpression]. unfold bind at 1.
    rewrite (parser_next_lex p _ _ Hbuf Htok). cbn [typ val].
    rewrite unnext_then by reflexivity.
    unfold parseBool, bind, parser_next. cbn [buf lex typ val].
    destruct b; reflexivity.
Qed.

Ltac norm_app :=
  repeat (first [rewrite append_assoc | progress cbn [append]]).

Lemma space_boundary (t : string) :
  isBoundary (fst (peekRune (String " " t))) = true.
Proof. reflexivity. Qed.

Lemma newline_boundary (t : string) :
  isBoundary (fst (peekRune (newline ++ t))) = true.
Proof. reflexivity. Qed.

Lemma wellFormed_not_error (n : node) :
  wellFormed n = true -> isNodeError n = false.
Proof. destruct n; [discriminate|reflexivity..]. Qed.

Lemma parseExpression_format (n : node) :
  forall fuel p sp indent rest,
    wellFormed n = true -> depth n <= fuel -> buf p = None ->
    drop (pos (lex p)) (input (lex p)) = sp ++ format n indent ++ rest ->
    allBytes isSpaceByte sp = true -> allBytes isSpaceByte indent = true ->
    isBoundary (fst (peekRune rest)) = true ->
    exists p',
      parseExpression fuel p = Ret (n, p')
      /\ buf p' = None /\ input (lex p') = input (lex p)
      /\ drop (pos (lex p')) (input (lex p)) = rest
      /\ pos (lex p') <= String.length (input (lex p)).
Proof.
  induction n as [e|fn IHfn arg IHarg|param body IHbody|name|z|b];
    intros fuel p sp indent rest Hwf Hdepth Hbuf Hd Hsp Hind Hb;
    try discriminate Hwf;
    (destruct fuel as [|fuel]; [cbn [depth] in Hdepth; lia|]).
  - (* application *)
    cbn [wellFormed] in Hwf. apply andb_true_iff in Hwf as [Hwfn Hwarg].
    cbn [depth] in Hdepth.
    cbn [format] in Hd.
    set (B := if isSimpleNode fn && isSimpleNode arg
              then " " ++ valString fn ++ " " ++ valString arg
              else newline ++ format fn (indent ++ formatIndent)
                   ++ newline ++ format arg (indent ++ formatIndent)) in *.
    assert (HB : isBoundary (fst (peekRune (B ++ rest))) = true).
    { unfold B. destruct (isSimpleNode fn && isSimpleNode arg); reflexivity. }
    assert (E1 : drop (pos (lex p)) (input (lex p))
                 = (sp ++ indent) ++ String "a" "pp" ++ (B ++ rest))
      by (rewrite Hd; norm_app; reflexivity).
    destruct (nextToken_word_at (lex p) _ "a" "pp" _ E1
                (allBytes_space_app _ _ Hsp Hind) eq_refl eq_refl HB)
      as (l1 & Htok1 & Hin1 & Hdrop1 & _).
    cbn [String.eqb Ascii.eqb Bool.eqb orb] in Htok1.
    cbn [parseExpression]. unfold bind at 1.
    rewrite (parser_next_lex p _ _ Hbuf Htok1). cbn [typ val].
    change ("app" =? "lam") with false. change ("app" =? "app") with true.
    cbv iota. unfold parseApp. unfold bind at 1.
    (* the function subexpression *)
    assert (Hfn : exists p2,
               parseExpression fuel (mkParser l1 None) = Ret (fn, p2)
               /\ buf p2 = None /\ input (lex p2) = input (lex p)
               /\ exists sp2 ind2,
                    drop (pos (lex p2)) (input (lex p))
                    = sp2 ++ format arg ind2 ++ rest
                    /\ allBytes isSpaceByte sp2 = true
                    /\ allBytes isSpaceByte ind2 = true).
    { unfold B in Hdrop1.
      destruct (isSimpleNode fn && isSimpleNode arg) eqn:Hs.
      - apply andb_true_iff in Hs as [Hsf Hsa].
        destruct (IHfn fuel (mkParser l1 None) " " ""
                    (" " ++ valString arg ++ rest))
          as (p2 & Hp & Hb2 & Hi2 & Hd2 & _); cbn [buf lex]; try assumption;
          try reflexivity; try lia.
        + rewrite Hin1, Hdrop1, (format_simple fn "" Hsf). norm_app. reflexivity.
        + exists p2. cbn [lex] in Hi2, Hd2. rewrite Hin1 in Hi2, Hd2. repeat split; try assumption.
          exists " ", "". rewrite Hd2, (format_simple arg "" Hsa).
          repeat split; reflexivity.
      - destruct (IHfn fuel (mkParser l1 None) newline (indent ++ formatIndent)
                    (newline ++ format arg (indent ++ formatIndent) ++ rest))
          as (p2 & Hp & Hb2 & Hi2 & Hd2 & _); cbn [buf lex]; try assumption;
          try reflexivity; try lia.
        + rewrite Hin1, Hdrop1. norm_app. reflexivity.
        + now apply allBytes_space_app.
        + exists p2. cbn [lex] in Hi2, Hd2. rewrite Hin1 in Hi2, Hd2. repeat split; try assumption.
          exists newline, (indent ++ formatIndent). rewrite Hd2.
          repeat split; try reflexivity; try (now apply allBytes_space_app). }
    destruct Hfn as (p2 & Hp2 & Hb2 & Hi2 & sp2 & ind2 & Hd2 & Hsp2 & Hind2).
    rewrite Hp2. rewrite (wellFormed_not_error fn Hwfn).
    destruct (IHarg fuel p2 sp2 ind2 rest)
      as (p3 & Hp3 & Hb3 & Hi3 & Hd3 & Hle3); try assumption; try lia.
    { now rewrite Hi2. }
    unfold bind. rewrite Hp3. rewrite (wellFormed_not_error arg Hwarg).
    exists p3. rewrite Hi2 in Hi3, Hd3, Hle3. repeat split; assumption.
  - (* lambda *)
    cbn [wellFormed] in Hwf. apply andb_true_iff in Hwf as [Hwf Hwbody].
    apply andb_true_iff in Hwf as [Hword Hnb]. apply negb_true_iff in Hnb.
    destruct (isWord_inv _ Hword) as (c0 & ws & -> & Hc0 & Hws).
    cbn [depth] in Hdepth.
    cbn [format] in Hd.
    set (B := if isSimpleNode body then valString body
              else newline ++ format body (indent ++ formatIndent)) in *.
    assert (E1 : drop (pos (lex p)) (input (lex p))
                 = (sp ++ indent) ++ String "l" "am"
                   ++ (" " ++ String c0 ws ++ " " ++ B ++ rest))
      by (rewrite Hd; norm_app; reflexivity).
    destruct (nextToken_word_at (lex p) _ "l" "am" _ E1
                (allBytes_space_app _ _ Hsp Hind) eq_refl eq_refl
                (space_boundary _))
      as (l1 & Htok1 & Hin1 & Hdrop1 & _).
    cbn [String.eqb Ascii.eqb Bool.eqb orb] in Htok1.
    cbn [parseExpression]. unfold bind at 1.
    rewrite (parser_next_lex p _ _ Hbuf Htok1). cbn [typ val].
    change ("lam" =? "lam") with true. cbv iota.
    (* the parameter *)
    assert (E2 : drop (pos l1) (input l1)
                 = " " ++ String c0 ws ++ (" " ++ B ++ rest))
      by (rewrite Hin1, Hdrop1; reflexivity).
    destruct (nextToken_word_at l1 _ c0 ws _ E2 eq_refl Hc0 Hws
                (space_boundary _))
      as (l2 & Htok2 & Hin2 & Hdrop2 & _).
    rewrite Hnb in Htok2.
    rewrite (parseLam_parameter _ (mkParser l1 None) (mkParser l2 None) _
               (parser_next_lex (mkParser l1 None) _ _ eq_refl Htok2) eq_refl).
    cbn [val].
    (* the body *)
    assert (Hbody : exists p3,
               parseExpression fuel (mkParser l2 None) = Ret (body, p3)
               /\ buf p3 = None /\ input (lex p3) = input (lex p)
               /\ drop (pos (lex p3)) (input (lex p)) = rest
               /\ pos (lex p3) <= String.length (input (lex p))).
    { unfold B in Hdrop2.
      destruct (isSimpleNode body) eqn:Hs.
      - destruct (IHbody fuel (mkParser l2 None) " " "" rest)
          as (p3 & Hp & Hb3 & Hi3 & Hd3 & Hle3); cbn [buf lex]; try assumption;
          try reflexivity; try lia.
        + rewrite Hin2, Hdrop2, (format_simple body "" Hs). norm_app.
          reflexivity.
        + exists p3. cbn [lex] in Hi3, Hd3, Hle3.
          rewrite Hin2, Hin1 in Hi3, Hd3, Hle3. auto.
      - destruct (IHbody fuel (mkParser l2 None) (" " ++ newline)
                    (indent ++ formatIndent) rest)
          as (p3 & Hp & Hb3 & Hi3 & Hd3 & Hle3); cbn [buf lex]; try assumption;
          try reflexivity; try lia.
        + rewrite Hin2, Hdrop2. norm_app. reflexivity.
        + now apply allBytes_space_app.
        + exists p3. cbn [lex] in Hi3, Hd3, Hle3.
          rewrite Hin2, Hin1 in Hi3, Hd3, Hle3. auto. }
    destruct Hbody as (p3 & Hp3 & Hb3 & Hi3 & Hd3 & Hle3).
    unfold bind. rewrite Hp3. rewrite (wellFormed_not_error body Hwbody).
    exists p3. repeat split; assumption.
  - (* identifier *)
    cbn [format] in Hd.
    apply (parseExpression_leaf (NodeIdentifier name) eq_refl Hwf fuel p
             (sp ++ indent) rest Hbuf); try assumption.
    + rewrite Hd. norm_app. reflexivity.
    + now apply allBytes_space_app.
  - (* number *)
    cbn [format] in Hd.
    apply (parseExpression_leaf (NodeNumber z) eq_refl Hwf fuel p
             (sp ++ indent) rest Hbuf); try assumption.
    + rewrite Hd. norm_app. reflexivity.
    + now apply allBytes_space_app.
  - (* boolean *)
    cbn [format] in Hd.
    apply (parseExpression_leaf (NodeBool b) eq_refl Hwf fuel p
             (sp ++ indent) rest Hbuf); try assumption.
    + rewrite Hd. norm_app. reflexivity.
    + now apply allBytes_space_app.
Qed.

Lemma depth_le_format (n : node) :
  forall indent, depth n <= S (String.length (format n indent)).
Proof.
  induction n as [e|fn IHfn arg IHarg|param body IHbody|name|z|b];
    intros indent; cbn [depth format]; try lia.
  - rewrite !length_app. cbn [String.length].
    destruct (isSimpleNode fn && isSimpleNode arg) eqn:Hs.
    + apply andb_true_iff in Hs as [Hf Ha].
      destruct fn; try discriminate Hf; destruct arg; try discriminate Ha;
        cbn [depth]; lia.
    + rewrite !length_app. cbn [String.length newline].
      specialize (IHfn (indent ++ formatIndent)).
      specialize (IHarg (indent ++ formatIndent)). lia.
  - rewrite !length_app. cbn [String.length].
    destruct (isSimpleNode body) eqn:Hs.
    + destruct body; try discriminate Hs; cbn [depth]; lia.
    + rewrite !length_app. cbn [String.length newline].
      specialize (IHbody (indent ++ formatIndent)). lia.
Qed.

Lemma space_run_boundary (t : string) :
  allBytes isSpaceByte t = true -> isBoundary (fst (peekRune t)) = true.
Proof.
  destruct t as [|c t]; [reflexivity|]. cbn [allBytes]. intros H.
  apply andb_true_iff in H as [Hc _]. unfold isSpaceByte in Hc.
  rewrite peekRune_ascii by now apply isSpace_ascii.
  cbn [fst]. unfold isBoundary. now rewrite Hc.
Qed.

Lemma parseExpression_format_string (n : node) (trailing : string) :
  wellFormed n = true -> allBytes isSpaceByte trailing = true ->
  parseString (format n "" ++ trailing) = Ret n.
Proof.
  intros Hwf Hsp.
  set (s := format n "" ++ trailing).
  destruct (parseExpression_format n (S (String.length s)) (newParser s)
              "" "" trailing Hwf)
    as (p' & Hp & Hbuf & Hin & Hdrop & Hle);
    try reflexivity; try assumption.
  - pose proof (depth_le_format n "") as D. unfold s. rewrite length_app. lia.
  - now apply space_run_boundary.
  - cbn [newParser newLexer lex input pos] in *.
    unfold parseString, parse. fold s. unfold bind at 1. rewrite Hp.
    rewrite (wellFormed_not_error n Hwf).
    unfold bind. destruct p' as [[inp ps st w] bf].
    cbn [lex buf input pos] in *. subst bf inp.
    unfold parser_next. cbn [buf lex].
    rewrite (nextToken_eof s ps st w trailing Hdrop Hle Hsp). reflexivity.
Qed.

(** The text that [format] prints for a well-formed tree, followed by any
    whitespace (the formatting mode ends it with a newline), parses back to
    the same tree. *)
Theorem format_parses_back (n : node) (trailing : string)
    (Hwf : wellFormed n = true)
    (Hsp : allBytes isSpaceByte trailing = true) :
  parseString (format n "" ++ trailing) = Ret n.
Proof. now apply parseExpression_format_string. Qed.

(** *** The parser builds well-formed trees *)

Lemma parser_next_inv (p p' : parser) (t : token) :
  parserInv p -> parser_next p = Ret (t, p') ->
  tokenOk t = true /\ parserInv p' /\ buf p' = None.
Proof.
  intros [Hle Hbuf] H. unfold parser_next in H.
  destruct (buf p) as [t0|] eqn:Eb.
  - injection H as <- <-. repeat split; auto.
  - destruct (nextToken (lex p)) as [[t1 l1]| |] eqn:Etok; try discriminate H.
    injection H as <- <-.
    destruct (nextToken_total (lex p) Hle) as (t2 & l2 & H2 & Hin & Hlen & _).
    rewrite Etok in H2. injection H2 as <- <-.
    repeat split; cbn [lex buf]; auto.
    + exact (nextToken_tokenOk _ _ _ Hle Etok).
    + now rewrite Hin.
Qed.

Lemma tokenOk_identifier (t : token) :
  tokenOk t = true -> typ t = tokenIdentifier ->
  isWord (val t) = true /\ (val t =? "true") || (val t =? "false") = false.
Proof.
  unfold tokenOk. intros H Ht. rewrite Ht in H.
  apply andb_true_iff in H as [Hw Hn]. apply negb_true_iff in Hn. auto.
Qed.

Lemma parseExpression_wellFormed (fuel : nat) :
  forall p n p',
    parserInv p -> parseExpression fuel p = Ret (n, p') ->
    (isNodeError n = true \/ wellFormed n = true) /\ parserInv p'.
Proof.
  induction fuel as [|fuel IH]; intros p n p' Hinv H; [discriminate H|].
  cbn [parseExpression] in H. unfold bind in H at 1.
  destruct (parser_next p) as [[tok p1]| |] eqn:Hnext; try discriminate H.
  destruct (parser_next_inv _ _ _ Hinv Hnext) as (Hok & Hinv1 & Hbuf1).
  assert (Hinv1' : parserInv (mkParser (lex p1) None))
    by (destruct Hinv1 as [L _]; split; [exact L|exact I]).
  destruct (typ tok) eqn:Ht.
  - injection H as <- <-. auto.
  - injection H as <- <-. auto.
  - rewrite unnext_then in H by assumption.
    unfold parseNumber, bind, parser_next in H. cbn [buf lex] in H.
    destruct (SetString10 (val tok)); injection H as <- <-; auto.
  - rewrite unnext_then in H by assumption.
    unfold parseBool, bind, parser_next in H. cbn [buf lex] in H.
    destruct (val tok =? "true"); [injection H as <- <-; auto|].
    destruct (val tok =? "false"); injection H as <- <-; auto.
  - destruct (val tok =? "lam") eqn:Hlam.
    + unfold parseLam, bind in H.
      destruct (parseIdentifier p1) as [[param p2]| |] eqn:Hid; try discriminate H.
      apply parseIdentifier_node in Hid as (tk & Hnext2 & Hcase).
      destruct (parser_next_inv _ _ _ Hinv1 Hnext2) as (Hok2 & Hinv2 & Hbuf2).
      destruct Hcase as [[Htk ->]|[_ ->]].
      * destruct (parseExpression fuel p2) as [[body p3]| |] eqn:Hb;
          try discriminate H.
        destruct (IH _ _ _ Hinv2 Hb) as [Hbody Hinv3].
        destruct (tokenOk_identifier _ Hok2 Htk) as [Hw Hn].
        destruct (isNodeError body) eqn:E; injection H as <- <-; [auto|].
        split; [|assumption]. right. cbn [wellFormed]. rewrite Hw, Hn.
        destruct Hbody as [Hbody|Hbody]; [congruence|]. now rewrite Hbody.
      * injection H as <- <-. auto.
    + destruct (val tok =? "app") eqn:Happ.
      * unfold parseApp, bind in H.
        destruct (parseExpression fuel p1) as [[fn p2]| |] eqn:Hf;
          try discriminate H.
        destruct (IH _ _ _ Hinv1 Hf) as [Hfn Hinv2].
        destruct (isNodeError fn) eqn:Ef; [injection H as <- <-; auto|].
        destruct (parseExpression fuel p2) as [[arg p3]| |] eqn:Ha;
          try discriminate H.
        destruct (IH _ _ _ Hinv2 Ha) as [Harg Hinv3].
        destruct (isNodeError arg) eqn:Ea; injection H as <- <-; [auto|].
        split; [|assumption]. right. cbn [wellFormed].
        destruct Hfn as [Hfn|Hfn]; [congruence|].
        destruct Harg as [Harg|Harg]; [congruence|]. now rewrite Hfn, Harg.
      * rewrite unnext_then in H by assumption.
        unfold parseIdentifier, bind, parser_next in H. cbn [buf lex] in H.
        rewrite Ht in H. simpl in H. injection H as <- <-.
        split; [|assumption]. right.
        destruct (tokenOk_identifier _ Hok Ht) as [Hw Hn].
        apply orb_false_iff in Hn as [Htrue Hfalse].
        cbn [wellFormed]. now rewrite Hw, Hlam, Happ, Htrue, Hfalse.
  - unfold bind in H.
    destruct (parseExpression fuel p1) as [[e p2]| |] eqn:He; try discriminate H.
    destruct (IH _ _ _ Hinv1 He) as [Hnode Hinv2].
    destruct (isNodeError e) eqn:E; [injection H as <- <-; auto|].
    destruct (parser_next p2) as [[tok' p3]| |] eqn:Hnext3; try discriminate H.
    destruct (parser_next_inv _ _ _ Hinv2 Hnext3) as (_ & Hinv3 & _).
    destruct (negb (tokenType_eqb (typ tok') tokenRightParen));
      injection H as <- <-; [auto|].
    split; [|assumption]. destruct Hnode as [Hn|Hn]; [congruence|now right].
  - injection H as <- <-. auto.
Qed.

Lemma parseString_wellFormed (s : string) (n : node) :
  parseString s = Ret n -> isNodeError n = true \/ wellFormed n = true.
Proof.
  intros H. unfold parseString, parse, bind in H.
  destruct (parseExpression (S (String.length s)) (newParser s))
    as [[root p1]| |] eqn:Hroot; try discriminate H.
  apply parseExpression_wellFormed in Hroot as [Hnode _];
    [|split; [cbn; lia|exact I]].
  destruct (isNodeError root) eqn:E; [injection H as <-; now left|].
  destruct (parser_next p1) as [[tok p2]| |]; try discriminate H.
  destruct (negb (tokenType_eqb (typ tok) tokenEOF));
    injection H as <-; [now left|].
  destruct Hnode as [Hn|Hn]; [congruence|now right].
Qed.

(** Formatting a program that parsed and parsing the printed text again
    gives the same tree: the formatter loses nothing but the layout. *)
Theorem format_round_trip (s : string) (n : node)
    (H : parseString s = Ret n) (Hok : isNodeError n = false) :
  parseString (format n "" ++ newline) = Ret n.
Proof.
  destruct (parseString_wellFormed s n H) as [He|Hwf]; [congruence|].
  apply parseExpression_format_string; [exact Hwf|reflexivity].
Qed.

(** Parsing any text ends with a tree, and that tree is either an error node
    or well-formed: each identifier is a word of letters and digits other
    than lam, app, true and false, each parameter a word other than true and
    false, and no error node lies below the root. *)
Theorem parser_builds_well_formed_trees (s : string) :
  exists n, parseString s = Ret n
            /\ (isNodeError n = true \/ wellFormed n = true).
Proof.
  destruct (parseString_returns s) as [n Hn].
  exists n. split; [exact Hn|]. exact (parseString_wellFormed s n Hn).
Qed.

(** ** Properties of the evaluator *)

Section EvaluatorProperties.

Variable fmtPointer : object -> string.

Local Abbreviation evalEnv := (evalEnv fmtPointer).
Local Abbreviation apply := (apply fmtPointer).
Local Abbreviation funcObject_apply := (funcObject_apply fmtPointer).
Local Abbreviation object_String := (object_String fmtPointer).
Local Abbreviation returns := (returns fmtPointer).
Local Abbreviation diverges := (diverges fmtPointer).
Local Abbreviation evalString := (evalString fmtPointer).
Local Abbreviation eval := (eval fmtPointer).

Lemma evalEnv_S_app (fuel : nat) (fn arg : node) (env : environment) :
  evalEnv (S fuel) (NodeApp fn arg) env =
  match evalEnv fuel fn env with
  | Ret fnv =>
    if isObjError fnv then Ret fnv
    else
      match evalEnv fuel arg env with
      | Ret argv =>
        if isObjError argv then Ret argv else apply (evalEnv fuel) fnv argv
      | Panic msg => Panic msg
      | OutOfFuel => OutOfFuel
      end
  | Panic msg => Panic msg
  | OutOfFuel => OutOfFuel
  end.
Proof. reflexivity. Qed.

(** More fuel does not change a result that was reached. *)
Lemma evalEnv_fuel_mono (fuel : nat) :
  forall (n : node) (env : environment) (r : outcome object),
    evalEnv fuel n env = r -> r <> OutOfFuel ->
    forall fuel', fuel <= fuel' -> evalEnv fuel' n env = r.
Proof.
  induction fuel as [|fuel IH]; intros n env r Hr Hne fuel' Hle.
  - simpl in Hr. congruence.
  - destruct fuel' as [|fuel']; [lia|].
    assert (Hle' : fuel <= fuel') by lia.
    destruct n as [e|fn arg|param body|name|z|b]; try exact Hr.
    rewrite evalEnv_S_app in Hr |- *.
    destruct (evalEnv fuel fn env) as [fnv| |] eqn:Hfn; try congruence.
    + rewrite (IH _ _ _ Hfn ltac:(discriminate) _ Hle').
      destruct (isObjError fnv); [exact Hr|].
      destruct (evalEnv fuel arg env) as [argv| |] eqn:Harg; try congruence.
      * rewrite (IH _ _ _ Harg ltac:(discriminate) _ Hle').
        destruct (isObjError argv); [exact Hr|].
        destruct fnv; simpl in Hr |- *; try exact Hr.
        apply IH with (fuel' := fuel') in Hr; assumption.
      * rewrite (IH _ _ _ Harg ltac:(discriminate) _ Hle'). exact Hr.
    + rewrite (IH _ _ _ Hfn ltac:(discriminate) _ Hle'). exact Hr.
Qed.

Lemma returns_fuel (n : node) (env : environment) (v : object) (fuel : nat) :
  evalEnv fuel n env = Ret v -> forall fuel', fuel <= fuel' ->
  evalEnv fuel' n env = Ret v.
Proof.
  intros H fuel' Hle.
  apply evalEnv_fuel_mono with (fuel := fuel);
    [assumption|discriminate|assumption].
Qed.

(** Evaluation is deterministic: two runs that finish agree. *)
Lemma evalEnv_deterministic (n : node) (env : environment)
    (f1 f2 : nat) (r1 r2 : outcome object) :
  evalEnv f1 n env = r1 -> r1 <> OutOfFuel ->
  evalEnv f2 n env = r2 -> r2 <> OutOfFuel -> r1 = r2.
Proof.
  intros H1 N1 H2 N2.
  pose proof (evalEnv_fuel_mono _ _ _ _ H1 N1 (max f1 f2) (Nat.le_max_l _ _)).
  pose proof (evalEnv_fuel_mono _ _ _ _ H2 N2 (max f1 f2) (Nat.le_max_r _ _)).
  congruence.
Qed.

Lemma returns_deterministic (n : node) (env : environment) (v1 v2 : object) :
  returns n env v1 -> returns n env v2 -> v1 = v2.
Proof.
  intros [f1 H1] [f2 H2].
  assert (Ret v1 = Ret v2) as E
    by (eapply evalEnv_deterministic; eauto; discriminate).
  congruence.
Qed.

Lemma returns_identifier (name : string) (env : environment) :
  returns (NodeIdentifier name) env (lookup env name).
Proof. exists 1. reflexivity. Qed.

Lemma returns_app_fn_error (fn arg : node) (env : environment) (e : string) :
  returns fn env (ObjError e) -> returns (NodeApp fn arg) env (ObjError e).
Proof.
  intros [fuel H]. exists (S fuel). rewrite evalEnv_S_app, H. reflexivity.
Qed.

Lemma returns_app_arg_error (fn arg : node) (env : environment)
    (fv : object) (e : string) :
  returns fn env fv -> isObjError fv = false ->
  returns arg env (ObjError e) -> returns (NodeApp fn arg) env (ObjError e).
Proof.
  intros [f1 H1] Hfv [f2 H2]. exists (S (max f1 f2)).
  rewrite evalEnv_S_app.
  rewrite (returns_fuel _ _ _ _ H1 _ (Nat.le_max_l _ _)), Hfv.
  rewrite (returns_fuel _ _ _ _ H2 _ (Nat.le_max_r _ _)). reflexivity.
Qed.

Lemma returns_app_func (fn arg : node) (env : environment)
    (f : funcObject) (av r : object) :
  returns fn env (ObjFunc f) -> returns arg env av -> isObjError av = false ->
  funcObject_apply f av = Ret r -> returns (NodeApp fn arg) env r.
Proof.
  intros [f1 H1] [f2 H2] Hav Hr. exists (S (max f1 f2)).
  rewrite evalEnv_S_app.
  rewrite (returns_fuel _ _ _ _ H1 _ (Nat.le_max_l _ _)). simpl.
  rewrite (returns_fuel _ _ _ _ H2 _ (Nat.le_max_r _ _)), Hav. exact Hr.
Qed.

Lemma returns_app_lam (fn arg : node) (env : environment)
    (param : string) (body : node) (cenv : environment) (av r : object) :
  returns fn env (ObjLam param body cenv) ->
  returns arg env av -> isObjError av = false ->
  returns body (extend cenv param av) r -> returns (NodeApp fn arg) env r.
Proof.
  intros [f1 H1] [f2 H2] Hav [f3 H3]. exists (S (max f1 (max f2 f3))).
  rewrite evalEnv_S_app.
  rewrite (returns_fuel _ _ _ _ H1 (max f1 (max f2 f3))) by lia. simpl.
  rewrite (returns_fuel _ _ _ _ H2 (max f1 (max f2 f3))) by lia. rewrite Hav.
  apply (returns_fuel _ _ _ _ H3). lia.
Qed.

(** A parsed program that evaluates with some fuel evaluates with more. *)
Lemma evalString_of_parse (s : string) (n : node) (v : object) (fuel0 : nat) :
  parseString s = Ret n ->
  evalEnv fuel0 n defaultEnvironment = Ret v ->
  forall fuel, fuel0 <= fuel -> evalString fuel s = Ret v.
Proof.
  intros Hp He fuel Hle. unfold evalString, eval. rewrite Hp.
  apply returns_fuel with (fuel := fuel0); assumption.
Qed.

(** C1.  An application evaluates its function subexpression first.  When
    that yields an error object, the error is the result whatever the argument
    subexpression is (it is not evaluated); when the function subexpression
    panics or does not return, so does the application.  Otherwise the
    argument is evaluated and an error object it yields is the result
    whatever the function value is (it is not invoked).  When both are
    non-errors the result is that of [apply], and applying a boolean or a
    number (a value that is neither a builtin nor a closure) returns the error
    object "apply: invalid function: '<value>'" and does not panic. *)
Theorem app_evaluation_order (fn arg : node) (env : environment) :
  (forall e, returns fn env (ObjError e) ->
     forall arg', returns (NodeApp fn arg') env (ObjError e))
  /\ (forall fuel r, evalEnv fuel fn env = r ->
        (forall v, r <> Ret v) ->
        forall arg', evalEnv (S fuel) (NodeApp fn arg') env = r)
  /\ (forall fv e, returns fn env fv -> isObjError fv = false ->
        returns arg env (ObjError e) ->
        returns (NodeApp fn arg) env (ObjError e))
  /\ (forall fuel fv av,
        evalEnv fuel fn env = Ret fv -> isObjError fv = false ->
        evalEnv fuel arg env = Ret av -> isObjError av = false ->
        evalEnv (S fuel) (NodeApp fn arg) env = apply (evalEnv fuel) fv av)
  /\ (forall fv av, returns fn env fv -> returns arg env av ->
        isObjError av = false ->
        isObjBool fv || isObjNumber fv = true ->
        returns (NodeApp fn arg) env
          (ObjError ("apply: invalid function: '" ++ object_String fv ++ "'"))).
Proof.
  repeat split.
  - intros e H arg'. now apply returns_app_fn_error.
  - intros fuel r H Hr arg'. rewrite evalEnv_S_app, H.
    destruct r as [v| |]; [now destruct (Hr v)|reflexivity|reflexivity].
  - intros fv e H1 Hfv H2. now apply returns_app_arg_error with (fv := fv).
  - intros fuel fv av H1 Hfv H2 Hav.
    rewrite evalEnv_S_app, H1, Hfv, H2, Hav. reflexivity.
  - intros fv av [f1 H1] [f2 H2] Hav Hkind. exists (S (max f1 f2)).
    rewrite evalEnv_S_app.
    rewrite (returns_fuel _ _ _ _ H1 _ (Nat.le_max_l _ _)).
    rewrite (returns_fuel _ _ _ _ H2 _ (Nat.le_max_r _ _)).
    destruct fv; try discriminate Hkind; simpl; rewrite Hav; reflexivity.
Qed.

Lemma lookup_extend_same (env : environment) (x : string) (v : object) :
  lookup (extend env x v) x = v.
Proof. simpl. now rewrite String.eqb_refl. Qed.

Lemma lookup_extend_other (env : environment) (x y : string) (v : object) :
  y <> x -> lookup (extend env x v) y = lookup env y.
Proof.
  intros H. simpl. apply String.eqb_neq in H. now rewrite H.
Qed.

Lemma lookup_extendAll (frames : list (string * object)) :
  forall (env : environment) (x : string),
    bindsName x frames = false ->
    lookup (extendAll env frames) x = lookup env x.
Proof.
  induction frames as [|[s v] frames IH]; intros env x H; [reflexivity|].
  simpl in H. apply orb_false_iff in H as [Hs Hrest].
  change (extendAll env ((s, v) :: frames))
    with (extendAll (extend env s v) frames).
  rewrite (IH _ _ Hrest). apply lookup_extend_other.
  apply String.eqb_neq. now rewrite String.eqb_sym.
Qed.

(** C2.  A lambda node evaluates to a closure that holds the environment
    current at that point; applying the closure evaluates the body in the
    captured environment extended with one frame that binds the parameter to
    the argument; [lookup] returns the value of the innermost frame for the
    symbol, so inside the body (under any further frames for other names) the
    parameter denotes the argument whatever the outer frames bind it to; and
    "app app lam x lam y x 1 2" evaluates to the number 1. *)
Theorem closure_lexical_scope :
  (forall fuel param body env,
     evalEnv (S fuel) (NodeLam param body) env = Ret (ObjLam param body env))
  /\ (forall fuel param body cenv arg,
        apply (evalEnv fuel) (ObjLam param body cenv) arg =
        evalEnv fuel body (extend cenv param arg))
  /\ (forall env x v, lookup (extend env x v) x = v)
  /\ (forall env x y v, y <> x -> lookup (extend env x v) y = lookup env y)
  /\ (forall outer x v frames,
        bindsName x frames = false ->
        returns (NodeIdentifier x) (extendAll (extend outer x v) frames) v)
  /\ (forall fuel, 3 <= fuel ->
        evalString fuel "app app lam x lam y x 1 2" = Ret (ObjNumber 1))
  /\ (forall fuel, 3 <= fuel ->
        evalString fuel "app app lam x lam x x 1 2" = Ret (ObjNumber 2)).
Proof.
  repeat split.
  - intros; apply lookup_extend_same.
  - intros; now apply lookup_extend_other.
  - intros outer x v frames H. exists 1. simpl.
    rewrite (lookup_extendAll _ _ _ H). now rewrite lookup_extend_same.
  - intros fuel Hf.
    eapply evalString_of_parse with (fuel0 := 3);
      [vm_compute; reflexivity|vm_compute; reflexivity|assumption].
  - intros fuel Hf.
    eapply evalString_of_parse with (fuel0 := 3);
      [vm_compute; reflexivity|vm_compute; reflexivity|assumption].
Qed.

Lemma returns_if_cond (env : environment) (c : node) (a : object) :
  lookup env "if" = builtinIf ->
  returns c env a -> isObjError a = false ->
  returns (NodeApp (NodeIdentifier "if") c) env
    (if isObjBool a then ObjFunc (FuncIf1 a)
     else ObjError ("if: not a bool: '" ++ object_String a ++ "'")).
Proof.
  intros Hif Hc Ha.
  apply returns_app_func with (f := FuncIf) (av := a); try assumption.
  - unfold builtinIf in Hif. rewrite <- Hif. apply returns_identifier.
  - simpl. now destruct (isObjBool a).
Qed.

Lemma returns_if_then (env : environment) (c t : node) (b : bool)
    (vt : object) :
  lookup env "if" = builtinIf ->
  returns c env (ObjBool b) -> returns t env vt -> isObjError vt = false ->
  returns (NodeApp (NodeApp (NodeIdentifier "if") c) t) env
    (ObjFunc (FuncIf2 (ObjBool b) vt)).
Proof.
  intros Hif Hc Ht Hvt.
  apply returns_app_func with (f := FuncIf1 (ObjBool b)) (av := vt);
    try assumption; [|reflexivity].
  apply (returns_if_cond env c (ObjBool b) Hif Hc eq_refl).
Qed.

(** A run of an application that finishes contains finished runs of both
    subexpressions, unless the function subexpression yields an error. *)
Lemma evalEnv_app_inv (fuel : nat) (fn arg : node) (env : environment)
    (r : outcome object) :
  evalEnv fuel (NodeApp fn arg) env = r -> r <> OutOfFuel ->
  exists fuel', fuel = S fuel' /\
    ((exists msg, evalEnv fuel' fn env = Panic msg /\ r = Panic msg)
     \/ (exists fv, evalEnv fuel' fn env = Ret fv /\
          (isObjError fv = true /\ r = Ret fv
           \/ isObjError fv = false /\
              ((exists msg, evalEnv fuel' arg env = Panic msg /\ r = Panic msg)
               \/ (exists av, evalEnv fuel' arg env = Ret av /\
                    (isObjError av = true /\ r = Ret av
                     \/ isObjError av = false /\
                        r = apply (evalEnv fuel') fv av)))))).
Proof.
  intros H Hne. destruct fuel as [|fuel']; [simpl in H; congruence|].
  exists fuel'. split; [reflexivity|].
  rewrite evalEnv_S_app in H.
  destruct (evalEnv fuel' fn env) as [fv|msg|]; [|left; eauto|congruence].
  right. exists fv. split; [reflexivity|].
  destruct (isObjError fv); [left; auto|right; split; [reflexivity|]].
  destruct (evalEnv fuel' arg env) as [av|msg|]; [|left; eauto|congruence].
  right. exists av. split; [reflexivity|].
  destruct (isObjError av); [left; auto|right; auto].
Qed.

(** C4.  In an environment where [if] denotes the builtin, for
    "app app app if c t e":
    - a condition that evaluates to a non-error object that is not a boolean
      gives the error object "if: not a bool: '<value>'", whatever [t] and
      [e] are;
    - a boolean condition with two branches that evaluate to non-errors gives
      the value of [t] when the condition is true and that of [e] otherwise;
    - both branches are evaluated before the choice: an error object from the
      branch that is not selected is the result, a [t] that yields an error
      ends the evaluation whatever the condition is, a second branch that
      does not return keeps the whole expression from returning although the
      first is selected, and a finished run that gives a non-error value
      comes with values of the condition and of both branches. *)
Theorem if_evaluates_both_branches (env : environment) (c t e : node)
    (Hif : lookup env "if" = builtinIf) :
  (forall a, returns c env a -> isObjError a = false -> isObjBool a = false ->
     returns (ifChain c t e) env
       (ObjError ("if: not a bool: '" ++ object_String a ++ "'")))
  /\ (forall b vt ve,
        returns c env (ObjBool b) ->
        returns t env vt -> isObjError vt = false ->
        returns e env ve -> isObjError ve = false ->
        returns (ifChain c t e) env (if b then vt else ve))
  /\ (forall vt msg,
        returns c env (ObjBool true) ->
        returns t env vt -> isObjError vt = false ->
        returns e env (ObjError msg) ->
        returns (ifChain c t e) env (ObjError msg))
  /\ (forall b msg,
        returns c env (ObjBool b) -> returns t env (ObjError msg) ->
        returns (ifChain c t e) env (ObjError msg))
  /\ (forall vt,
        returns c env (ObjBool true) ->
        returns t env vt -> isObjError vt = false ->
        diverges e env -> diverges (ifChain c t e) env)
  /\ (forall v,
        returns (ifChain c t e) env v -> isObjError v = false ->
        exists b vt ve,
          returns c env (ObjBool b) /\ returns t env vt /\ returns e env ve
          /\ v = (if b then vt else ve)).
Proof.
  unfold ifChain. repeat split.
  - intros a Hc Ha Hb.
    do 2 apply returns_app_fn_error.
    pose proof (returns_if_cond env c a Hif Hc Ha) as H.
    now rewrite Hb in H.
  - intros b vt ve Hc Ht Hvt He Hve.
    apply returns_app_func with (f := FuncIf2 (ObjBool b) vt) (av := ve);
      try assumption; [now apply returns_if_then|].
    now destruct b.
  - intros vt msg Hc Ht Hvt He.
    apply returns_app_arg_error with (fv := ObjFunc (FuncIf2 (ObjBool true) vt));
      [now apply returns_if_then|reflexivity|assumption].
  - intros b msg Hc Ht.
    apply returns_app_fn_error.
    apply returns_app_arg_error with (fv := ObjFunc (FuncIf1 (ObjBool b)));
      [|reflexivity|assumption].
    apply (returns_if_cond env c (ObjBool b) Hif Hc eq_refl).
  - intros vt Hc Ht Hvt He fuel.
    destruct fuel as [|fuel]; [reflexivity|].
    rewrite evalEnv_S_app.
    destruct (returns_if_then env c t true vt Hif Hc Ht Hvt) as [f0 H0].
    destruct (evalEnv fuel (NodeApp (NodeApp (NodeIdentifier "if") c) t) env)
      as [fv|msg|] eqn:Hfn; [| |reflexivity].
    + assert (Ret fv = Ret (ObjFunc (FuncIf2 (ObjBool true) vt))) as E
        by (eapply evalEnv_deterministic; eauto; discriminate).
      injection E as ->. simpl. now rewrite (He fuel).
    + assert (Panic msg = Ret (ObjFunc (FuncIf2 (ObjBool true) vt))) as E
        by (eapply evalEnv_deterministic; eauto; discriminate).
      discriminate E.
  - intros v [fuel H] Hv.
    apply evalEnv_app_inv in H as (f1 & -> & H); [|discriminate].
    destruct H as [(msg & _ & E)|(fv2 & H2 & H)]; [discriminate E|].
    destruct H as [[Herr E]|[Hfv2 H]]; [congruence|].
    destruct H as [(msg & _ & E)|(ve & He & H)]; [discriminate E|].
    destruct H as [[Herr E]|[Hve Hap]]; [congruence|].
    apply evalEnv_app_inv in H2 as (f2 & -> & H2); [|discriminate].
    destruct H2 as [(msg & _ & E)|(fv1 & H1 & H2)]; [discriminate E|].
    destruct H2 as [[Herr E]|[Hfv1 H2]]; [congruence|].
    destruct H2 as [(msg & _ & E)|(vt & Ht & H2)]; [discriminate E|].
    destruct H2 as [[Herr E]|[Hvt Hap2]]; [congruence|].
    apply evalEnv_app_inv in H1 as (f3 & -> & H1); [|discriminate].
    destruct H1 as [(msg & _ & E)|(fv0 & H0 & H1)]; [discriminate E|].
    destruct H1 as [[Herr E]|[Hfv0 H1]]; [congruence|].
    destruct H1 as [(msg & _ & E)|(a & Hc & H1)]; [discriminate E|].
    destruct H1 as [[Herr E]|[Ha Hap1]]; [congruence|].
    destruct f3 as [|f3]; [discriminate H0|].
    simpl in H0. rewrite Hif in H0. injection H0 as <-.
    simpl in Hap1. destruct a as [m|b|z|f|p bd ce]; simpl in Hap1;
      try (injection Hap1 as ->; discriminate Hfv1).
    injection Hap1 as ->. simpl in Hap2. injection Hap2 as ->.
    simpl in Hap.
    exists b, vt, ve. repeat split.
    + exists (S f3). exact Hc.
    + exists (S (S f3)). exact Ht.
    + exists (S (S (S f3))). exact He.
    + destruct b; congruence.
Qed.

(** C5.  The builtin [add], applied to [a] and then to [b] (the function
    value it returned): two numbers give the number [a + b] over the
    unbounded integers; a first argument that is not a number gives the error
    object "add: not a number: '<a>'", and a number followed by a second
    argument that is not a number gives "add: not a number: '<b>'".  Through
    the evaluator, for "app app add x y" in an environment where [add]
    denotes the builtin: the sum of the two values; the same error for a
    non-error, non-number value of [x] (whatever [y] is) or of [y]; and
    "app app add false 1" and "app app add 1 true" give the errors that name
    'false' and 'true'. *)
Theorem add_builtin (env : environment) (x y : node)
    (Hadd : lookup env "add" = builtinAdd) :
  (forall an bn,
     funcObject_apply FuncAdd (ObjNumber an) = Ret (ObjFunc (FuncAdd1 (ObjNumber an)))
     /\ funcObject_apply (FuncAdd1 (ObjNumber an)) (ObjNumber bn) =
        Ret (ObjNumber (an + bn)))
  /\ (forall a, isObjNumber a = false ->
        funcObject_apply FuncAdd a =
        Ret (ObjError ("add: not a number: '" ++ object_String a ++ "'")))
  /\ (forall an b, isObjNumber b = false ->
        funcObject_apply (FuncAdd1 (ObjNumber an)) b =
        Ret (ObjError ("add: not a number: '" ++ object_String b ++ "'")))
  /\ (forall an bn,
        returns x env (ObjNumber an) -> returns y env (ObjNumber bn) ->
        returns (addChain x y) env (ObjNumber (an + bn)))
  /\ (forall a, returns x env a -> isObjError a = false ->
        isObjNumber a = false ->
        returns (addChain x y) env
          (ObjError ("add: not a number: '" ++ object_String a ++ "'")))
  /\ (forall an b, returns x env (ObjNumber an) ->
        returns y env b -> isObjError b = false -> isObjNumber b = false ->
        returns (addChain x y) env
          (ObjError ("add: not a number: '" ++ object_String b ++ "'")))
  /\ (forall fuel, 3 <= fuel ->
        evalString fuel "app app add false 1" =
          Ret (ObjError "add: not a number: 'false'")
        /\ evalString fuel "app app add 1 true" =
          Ret (ObjError "add: not a number: 'true'")
        /\ evalString fuel "app app add 1 3" = Ret (ObjNumber 4)
        /\ evalString fuel "app app add -7 3" = Ret (ObjNumber (-4))).
Proof.
  assert (Hid : returns (NodeIdentifier "add") env (ObjFunc FuncAdd))
    by (unfold builtinAdd in Hadd; rewrite <- Hadd; apply returns_identifier).
  unfold addChain. repeat split.
  - intros a Ha. simpl. now rewrite Ha.
  - intros an b Hb. simpl. now rewrite Hb.
  - intros an bn Hx Hy.
    apply returns_app_func with (f := FuncAdd1 (ObjNumber an)) (av := ObjNumber bn);
      try assumption; try reflexivity.
    apply returns_app_func with (f := FuncAdd) (av := ObjNumber an);
      try assumption; reflexivity.
  - intros a Hx Ha Hn.
    apply returns_app_fn_error.
    apply returns_app_func with (f := FuncAdd) (av := a); try assumption.
    simpl. now rewrite Hn.
  - intros an b Hx Hy Hb Hn.
    apply returns_app_func with (f := FuncAdd1 (ObjNumber an)) (av := b);
      try assumption.
    + apply returns_app_func with (f := FuncAdd) (av := ObjNumber an);
        try assumption; reflexivity.
    + simpl. now rewrite Hn.
  - eapply evalString_of_parse with (fuel0 := 3);
      [vm_compute; reflexivity|vm_compute; reflexivity|assumption].
  - eapply evalString_of_parse with (fuel0 := 3);
      [vm_compute; reflexivity|vm_compute; reflexivity|assumption].
  - eapply evalString_of_parse with (fuel0 := 3);
      [vm_compute; reflexivity|vm_compute; reflexivity|assumption].
  - eapply evalString_of_parse with (fuel0 := 3);
      [vm_compute; reflexivity|vm_compute; reflexivity|assumption].
Qed.

(** C8.  The evaluator on an error node: the type assertion on the node's
    payload fails, so the evaluation panics instead of returning an error
    object.  The parse of "()" is an error node, and evaluating it panics
    with any amount of fuel. *)
Theorem eval_error_node_panics :
  (forall fuel e env,
     evalEnv (S fuel) (NodeError e) env =
     Panic "interface conversion: interface {} is not string")
  /\ parseString "()" =
     Ret (NodeError (ExpectError syntaxExpression tokenRightParen))
  /\ (forall fuel,
        evalString (S fuel) "()" =
        Panic "interface conversion: interface {} is not string").
Proof.
  split; [|split].
  - intros fuel e env. simpl. now destruct e.
  - vm_compute. reflexivity.
  - intros fuel. reflexivity.
Qed.

(** C3.  Every number literal (an optional minus sign and one or more
    decimal digits, of any length) evaluates to the number object that holds
    the value of the literal in positional notation; and for every integer
    [z], evaluating its decimal text gives back [z]. *)
Theorem number_literals_are_exact :
  (forall s fuel,
     isNumberLiteral s = true ->
     evalString (S fuel) s = Ret (ObjNumber (literalValue s)))
  /\ (forall z fuel, evalString (S fuel) (bigInt_String z) = Ret (ObjNumber z))
  /\ (forall z, object_String (ObjNumber z) = bigInt_String z).
Proof.
  split; [|split].
  - intros s fuel H. unfold evalString.
    now rewrite (parseString_literal s H).
  - intros z fuel. destruct (bigInt_String_literal z) as [Hlit Hval].
    unfold evalString.
    rewrite (parseString_literal _ Hlit), Hval. reflexivity.
  - reflexivity.
Qed.

Lemma lookup_ok (env : environment) (name : string) :
  envOk env = true -> objectOk (lookup env name) = true.
Proof.
  induction env as [|parent IH sym v]; intros H; [reflexivity|].
  cbn [envOk] in H. apply andb_true_iff in H as [Hp Hv].
  cbn [lookup]. destruct (name =? sym); auto.
Qed.

Lemma funcObject_apply_ok (f : funcObject) (v : object) :
  funcOk f = true -> objectOk v = true ->
  exists r, funcObject_apply f v = Ret r /\ objectOk r = true.
Proof.
  intros Hf Hv.
  destruct f as [|a| |a|a b| |a]; cbn [funcObject_apply funcOk] in *.
  - destruct (isObjNumber v) eqn:E; cbn [negb]; eexists; split;
      try reflexivity. exact E.
  - destruct (isObjNumber v) eqn:E; cbn [negb];
      [|eexists; split; reflexivity].
    destruct a; try discriminate Hf. destruct v; try discriminate E.
    eexists; split; reflexivity.
  - destruct (isObjBool v) eqn:E; cbn [negb]; eexists; split;
      try reflexivity. exact E.
  - eexists; split; [reflexivity|]. cbn [objectOk funcOk]. now rewrite Hf, Hv.
  - apply andb_true_iff in Hf as [Ha Hb].
    destruct a; try discriminate Ha.
    destruct b0; eexists; split; try reflexivity; assumption.
  - destruct (isObjNumber v) eqn:E; cbn [negb]; eexists; split;
      try reflexivity. exact E.
  - destruct (isObjNumber v) eqn:E; cbn [negb];
      [|eexists; split; reflexivity].
    destruct a; try discriminate Hf. destruct v; try discriminate E.
    eexists; split; reflexivity.
Qed.

(** Evaluating a tree without error nodes, in an environment of well-formed
    values, never panics, and what it returns is well-formed. *)
Lemma evalEnv_safe (fuel : nat) :
  forall (n : node) (env : environment),
    noErrorNode n = true -> envOk env = true ->
    match evalEnv fuel n env with
    | Ret v => objectOk v = true
    | Panic _ => False
    | OutOfFuel => True
    end.
Proof.
  induction fuel as [|fuel IH]; intros n env Hn Henv; [exact I|].
  destruct n as [e|fn arg|param body|name|z|b]; try discriminate Hn;
    try reflexivity.
  - cbn [noErrorNode] in Hn. apply andb_true_iff in Hn as [Hfn Harg].
    rewrite evalEnv_S_app.
    pose proof (IH fn env Hfn Henv) as Hf.
    destruct (evalEnv fuel fn env) as [fv| |]; [|exact Hf|exact I].
    destruct (isObjError fv) eqn:Ef; [exact Hf|].
    pose proof (IH arg env Harg Henv) as Ha.
    destruct (evalEnv fuel arg env) as [av| |]; [|exact Ha|exact I].
    destruct (isObjError av) eqn:Ea; [exact Ha|].
    destruct fv as [m|b|z|f|param body cenv]; try reflexivity.
    + destruct (funcObject_apply_ok f av Hf Ha) as (r & Hr & Hok).
      cbn. rewrite Hr. exact Hok.
    + cbn [objectOk] in Hf. apply andb_true_iff in Hf as [Hb Hc].
      cbn. apply IH; [exact Hb|]. cbn [extend newEnvironment envOk].
      now rewrite Hc, Ha.
  - cbn [evalEnv objectOk]. cbn [noErrorNode] in Hn. now rewrite Hn, Henv.
  - cbn [evalEnv]. now apply lookup_ok.
Qed.

(** A tree without error nodes never makes the evaluator panic in the
    default environment: with any fuel the run returns an object or is still
    going. *)
Theorem eval_never_panics (n : node) (fuel : nat)
    (H : noErrorNode n = true) :
  (exists v, eval fuel n = Ret v /\ objectOk v = true)
  \/ eval fuel n = OutOfFuel.
Proof.
  change (eval fuel n) with (evalEnv fuel n defaultEnvironment).
  pose proof (evalEnv_safe fuel n defaultEnvironment H eq_refl) as S.
  destruct (evalEnv fuel n defaultEnvironment) as [v| |];
    [left; now exists v|contradiction|now right].
Qed.

(** The only programs on which [evalString] panics are those whose parse
    failed: the panic comes from the error node at the root. *)
Theorem evalString_panics_only_on_parse_errors (s : string) (fuel : nat)
    (msg : string) (H : evalString fuel s = Panic msg) :
  exists e, parseString s = Ret (NodeError e).
Proof.
  destruct (parseString_returns s) as [n Hn].
  unfold evalString in H. rewrite Hn in H.
  destruct (parseString_root_error s n Hn) as [He|Hok].
  - destruct n; try discriminate He. now exists e.
  - pose proof (evalEnv_safe fuel n defaultEnvironment Hok eq_refl) as S.
    change (evalEnv fuel n defaultEnvironment = Panic msg) in H.
    now rewrite H in S.
Qed.

(** The builtin [gt]: two numbers give the boolean that is true exactly when
    the first is greater than the second; a first or second argument that is
    not a number gives the error object "gt: not a number: '<value>'"; and
    "app app gt x y" evaluates accordingly. *)
Theorem gt_builtin (env : environment) (x y : node)
    (Hgt : lookup env "gt" = builtinGt) :
  (forall an bn,
     funcObject_apply (FuncGt1 (ObjNumber an)) (ObjNumber bn) =
     Ret (ObjBool (an >? bn)%Z)
     /\ ((an >? bn)%Z = true <-> (bn < an)%Z))
  /\ (forall a, isObjNumber a = false ->
        funcObject_apply FuncGt a =
        Ret (ObjError ("gt: not a number: '" ++ object_String a ++ "'")))
  /\ (forall an b, isObjNumber b = false ->
        funcObject_apply (FuncGt1 (ObjNumber an)) b =
        Ret (ObjError ("gt: not a number: '" ++ object_String b ++ "'")))
  /\ (forall an bn,
        returns x env (ObjNumber an) -> returns y env (ObjNumber bn) ->
        returns (NodeApp (NodeApp (NodeIdentifier "gt") x) y) env
          (ObjBool (an >? bn)%Z))
  /\ (forall a, returns x env a -> isObjError a = false ->
        isObjNumber a = false ->
        returns (NodeApp (NodeApp (NodeIdentifier "gt") x) y) env
          (ObjError ("gt: not a number: '" ++ object_String a ++ "'")))
  /\ (forall an b, returns x env (ObjNumber an) ->
        returns y env b -> isObjError b = false -> isObjNumber b = false ->
        returns (NodeApp (NodeApp (NodeIdentifier "gt") x) y) env
          (ObjError ("gt: not a number: '" ++ object_String b ++ "'"))).
Proof.
  assert (Hid : returns (NodeIdentifier "gt") env (ObjFunc FuncGt))
    by (unfold builtinGt in Hgt; rewrite <- Hgt; apply returns_identifier).
  repeat split.
  - intros H. apply Z.gtb_lt in H. exact H.
  - intros H. now apply Z.gtb_lt.
  - intros a Ha. simpl. now rewrite Ha.
  - intros an b Hb. simpl. now rewrite Hb.
  - intros an bn Hx Hy.
    apply returns_app_func with (f := FuncGt1 (ObjNumber an)) (av := ObjNumber bn);
      try assumption; try reflexivity.
    apply returns_app_func with (f := FuncGt) (av := ObjNumber an);
      try assumption; reflexivity.
  - intros a Hx Ha Hn.
    apply returns_app_fn_error.
    apply returns_app_func with (f := FuncGt) (av := a); try assumption.
    simpl. now rewrite Hn.
  - intros an b Hx Hy Hb Hn.
    apply returns_app_func with (f := FuncGt1 (ObjNumber an)) (av := b);
      try assumption.
    + apply returns_app_func with (f := FuncGt) (av := ObjNumber an);
        try assumption; reflexivity.
    + simpl. now rewrite Hn.
Qed.

(** A symbol that no frame of the environment binds evaluates to the error
    object "unknown identifier: '<symbol>'". *)
Theorem unknown_identifier (env : environment) (name : string)
    (H : binds env name = false) :
  lookup env name = ObjError ("unknown identifier: '" ++ name ++ "'")
  /\ forall fuel, evalEnv (S fuel) (NodeIdentifier name) env =
                  Ret (ObjError ("unknown identifier: '" ++ name ++ "'")).
Proof.
  assert (L : lookup env name = ObjError ("unknown identifier: '" ++ name ++ "'")).
  { induction env as [|parent IH sym v]; [reflexivity|].
    cbn [binds] in H. apply orb_false_iff in H as [Hs Hp].
    cbn [lookup]. rewrite Hs. now apply IH. }
  split; [exact L|]. intros fuel. cbn [evalEnv]. now rewrite L.
Qed.

Lemma evalEnv_S_lam (fuel : nat) (param : string) (body : node)
    (env : environment) :
  evalEnv (S fuel) (NodeLam param body) env = Ret (ObjLam param body env).
Proof. reflexivity. Qed.

Lemma evalEnv_S_identifier (fuel : nat) (name : string) (env : environment) :
  evalEnv (S fuel) (NodeIdentifier name) env = Ret (lookup env name).
Proof. reflexivity. Qed.

Lemma apply_lam (ev : node -> environment -> outcome object)
    (param : string) (body : node) (cenv : environment) (arg : object) :
  apply ev (ObjLam param body cenv) arg = ev body (extend cenv param arg).
Proof. reflexivity. Qed.

(** Self-application never returns: for every parameter name and every
    environment, "app lam x app x x lam x app x x" runs out of any amount of
    fuel. *)
Theorem self_application_diverges (x : string) (env : environment) :
  diverges (NodeApp (NodeLam x (NodeApp (NodeIdentifier x) (NodeIdentifier x)))
                    (NodeLam x (NodeApp (NodeIdentifier x) (NodeIdentifier x))))
           env.
Proof.
  set (body := NodeApp (NodeIdentifier x) (NodeIdentifier x)).
  assert (Hbody : forall fuel cenv,
             evalEnv fuel body (extend cenv x (ObjLam x body cenv)) = OutOfFuel).
  { induction fuel as [|fuel IH]; intros cenv; [reflexivity|].
    unfold body at 1. rewrite evalEnv_S_app.
    destruct fuel as [|fuel]; [reflexivity|].
    rewrite !evalEnv_S_identifier, lookup_extend_same. cbn [isObjError].
    rewrite apply_lam. apply IH. }
  intros fuel. destruct fuel as [|fuel]; [reflexivity|].
  rewrite evalEnv_S_app.
  destruct fuel as [|fuel]; [reflexivity|].
  rewrite !evalEnv_S_lam. cbn [isObjError]. rewrite apply_lam. apply Hbody.
Qed.

End EvaluatorProperties.

(** ** Instances at concrete inputs *)

(** The unselected branch of "app app app if true 1 x" is evaluated: its
    error is the result. *)
Lemma if_evaluates_both_branches_witness :
  returns samplePointer
    (ifChain (NodeBool true) (NodeNumber 1) (NodeIdentifier "x"))
    defaultEnvironment (ObjError "unknown identifier: 'x'").
Proof.
  apply (proj1 (proj2 (proj2
           (if_evaluates_both_branches samplePointer defaultEnvironment
              (NodeBool true) (NodeNumber 1) (NodeIdentifier "x") eq_refl)))
         (ObjNumber 1) "unknown identifier: 'x'").
  - exists 1. reflexivity.
  - exists 1. reflexivity.
  - reflexivity.
  - exists 1. reflexivity.
Defined.

(** "app app add 2 40" in the default environment. *)
Lemma add_builtin_witness :
  returns samplePointer (addChain (NodeNumber 2) (NodeNumber 40))
    defaultEnvironment (ObjNumber 42).
Proof.
  apply (proj1 (proj2 (proj2 (proj2
           (add_builtin samplePointer defaultEnvironment
              (NodeNumber 2) (NodeNumber 40) eq_refl))))
         2%Z 40%Z).
  - exists 1. reflexivity.
  - exists 1. reflexivity.
Defined.

Lemma nextToken_returns_witness :
  exists t l',
    nextToken (newLexer "lam x x") = Ret (t, l')
    /\ input l' = input (newLexer "lam x x")
    /\ pos l' <= String.length (input (newLexer "lam x x"))
    /\ (typ t = tokenError \/ typ t = tokenEOF
        \/ pos (newLexer "lam x x") < pos l').
Proof.
  apply (nextToken_returns (newLexer "lam x x")). simpl. lia.
Defined.

Lemma nextToken_end_marker_repeats_witness :
  exists lend,
    nextToken (mkLexer "42  " 2 0 0) = Ret (mktok tokenEOF "", lend)
    /\ nextToken lend = Ret (mktok tokenEOF "", lend).
Proof.
  apply (nextToken_end_marker_repeats "42  " 2 0 0); [simpl; lia|reflexivity].
Defined.

Lemma nextToken_skips_spaces_witness :
  nextToken (mkLexer "  x" 0 0 0) = nextToken (mkLexer "  x" (0 + 2) 0 0).
Proof.
  apply (nextToken_skips_spaces "  x" 0 0 0 0 0 "  " "x");
    [reflexivity|simpl; lia|reflexivity|reflexivity].
Defined.

Lemma number_token_witness :
  nextToken (mkLexer "-12)" 0 0 0) =
  Ret (mktok tokenNumber ("-" ++ "12"),
       mkLexer "-12)" (0 + String.length ("-" ++ "12"))
               (0 + String.length ("-" ++ "12")) (snd (peekRune ")"))).
Proof.
  apply (number_token "-12)" 0 0 0 "-" "1" "2" ")");
    [reflexivity|now right|reflexivity|reflexivity].
Defined.

Lemma word_token_witness :
  exists t l',
    nextToken (mkLexer "true x" 0 0 0) = Ret (t, l')
    /\ val t = "true"
    /\ pos l' = 0 + String.length "true"
    /\ (typ t = tokenBool <-> "true" = "true" \/ "true" = "false")
    /\ (typ t = tokenIdentifier <-> "true" <> "true" /\ "true" <> "false").
Proof.
  apply (word_token "true x" 0 0 0 "t" "rue" " x"); reflexivity.
Defined.

Lemma illegal_character_witness :
  (exists l',
     nextToken (mkLexer "]" 0 0 0) =
     Ret (errorToken ("illegal character: '"
                      ++ runeString (fst (peekRune (drop 0 "]"))) ++ "'"), l'))
  /\ (forall c t, drop 0 "]" = String c t -> (byteZ c < 128)%Z ->
        runeString (fst (peekRune (drop 0 "]"))) = String c "").
Proof.
  apply (illegal_character "]" 0 0 0); [simpl; lia|reflexivity..].
Defined.

Lemma blank_input_is_incomplete_witness :
  parseString "  " = Ret (NodeError (ExpectError syntaxExpression tokenEOF))
  /\ errorVal_Error (ExpectError syntaxExpression tokenEOF) =
     "expecting expression; got EOF"
  /\ isUnexpectedEOFError (NodeError (ExpectError syntaxExpression tokenEOF))
     = true.
Proof.
  apply (blank_input_is_incomplete "  "). reflexivity.
Defined.

Lemma identifier_program_witness :
  parseString "x1" = Ret (NodeIdentifier "x1").
Proof.
  apply (identifier_program "x" "1"); reflexivity.
Defined.

Lemma parseString_error_at_root_witness :
  isNodeError (NodeApp (NodeLam "x" (NodeIdentifier "x")) (NodeNumber 2)) = true
  \/ noErrorNode (NodeApp (NodeLam "x" (NodeIdentifier "x")) (NodeNumber 2))
     = true.
Proof.
  apply (parseString_error_at_root "app (lam x x) 2"). vm_compute. reflexivity.
Defined.

Lemma eval_never_panics_witness :
  (exists v, eval samplePointer 2 (NodeApp (NodeBool true) (NodeNumber 1))
             = Ret v /\ objectOk v = true)
  \/ eval samplePointer 2 (NodeApp (NodeBool true) (NodeNumber 1)) = OutOfFuel.
Proof.
  apply (eval_never_panics samplePointer). reflexivity.
Defined.

Lemma evalString_panics_only_on_parse_errors_witness :
  exists e, parseString "()" = Ret (NodeError e).
Proof.
  apply (evalString_panics_only_on_parse_errors samplePointer "()" 1
           "interface conversion: interface {} is not string").
  reflexivity.
Defined.

Lemma gt_builtin_witness :
  returns samplePointer
    (NodeApp (NodeApp (NodeIdentifier "gt") (NodeNumber 2)) (NodeNumber 1))
    defaultEnvironment (ObjBool (2 >? 1)%Z).
Proof.
  apply (proj1 (proj2 (proj2 (proj2
           (gt_builtin samplePointer defaultEnvironment
              (NodeNumber 2) (NodeNumber 1) eq_refl))))
         2%Z 1%Z).
  - exists 1. reflexivity.
  - exists 1. reflexivity.
Defined.

Lemma unknown_identifier_witness :
  lookup defaultEnvironment "x" = ObjError ("unknown identifier: '" ++ "x" ++ "'")
  /\ forall fuel, evalEnv samplePointer (S fuel) (NodeIdentifier "x")
                    defaultEnvironment =
                  Ret (ObjError ("unknown identifier: '" ++ "x" ++ "'")).
Proof.
  apply (unknown_identifier samplePointer defaultEnvironment "x"). reflexivity.
Defined.

Lemma format_parses_back_witness :
  parseString
    (format (NodeApp (NodeLam "x" (NodeApp (NodeIdentifier "x") (NodeNumber (-3))))
                     (NodeBool true)) ""
     ++ newline)
  = Ret (NodeApp (NodeLam "x" (NodeApp (NodeIdentifier "x") (NodeNumber (-3))))
                 (NodeBool true)).
Proof.
  apply (format_parses_back
           (NodeApp (NodeLam "x" (NodeApp (NodeIdentifier "x") (NodeNumber (-3))))
                    (NodeBool true)) newline); reflexivity.
Defined.

Lemma format_round_trip_witness :
  parseString
    (format (NodeLam "lam" (NodeApp (NodeIdentifier "f") (NodeNumber 12))) ""
     ++ newline)
  = Ret (NodeLam "lam" (NodeApp (NodeIdentifier "f") (NodeNumber 12))).
Proof.
  apply (format_round_trip "lam  lam (app f 012)"
           (NodeLam "lam" (NodeApp (NodeIdentifier "f") (NodeNumber 12))));
    reflexivity.
Defined.
